(** * Japanese Tutor CLI, lesson 1: the answer checkers of [jp_tutor.py]

    A shallow embedding of the text utilities ([normalize_nfkc],
    [katakana_to_hiragana], [to_hiragana_lower], [collapse_spaces],
    [strip_all_spaces]) and of the three checkers ([check_greeting],
    [check_self_intro], [check_vowels]).

    A Python [str] is a sequence of code points, here a [list Z].  Python
    exceptions are explicit: a function that can raise returns a [result].
    The calls into Python's library ([unicodedata.normalize], [str.lower],
    [str.strip], [re.sub], [re.split], [re.match]) are embedded as
    executable functions; the rows of the Unicode Character Database they
    read are a parameter of the program (a [UCD] record). *)

From Stdlib Require Import String Ascii ZArith List Bool Lia.
Import ListNotations.
Open Scope Z_scope.

(** ** Strings *)

(** A Python string: its code points, in order. *)
Definition str := list Z.

(** Decoding of the UTF-8 bytes of a literal of this file, so that the
    literals of the source can be written as they are. *)
Fixpoint utf8_decode (bs : list Z) (pending : nat) (acc : Z) : str :=
  match bs with
  | [] => []
  | b :: rest =>
      match pending with
      | O =>
          if b <? 0x80 then b :: utf8_decode rest 0 0
          else if b <? 0xE0 then utf8_decode rest 1 (b - 0xC0)
          else if b <? 0xF0 then utf8_decode rest 2 (b - 0xE0)
          else utf8_decode rest 3 (b - 0xF0)
      | S n =>
          let acc' := acc * 64 + (b - 0x80) in
          match n with
          | O => acc' :: utf8_decode rest 0 0
          | S _ => utf8_decode rest n acc'
          end
      end
  end.

Definition utf8 (s : string) : str :=
  utf8_decode (map (fun a => Z.of_N (N_of_ascii a)) (list_ascii_of_string s)) 0 0.

(** [a == b] on strings. *)
Fixpoint eqb_str (a b : str) : bool :=
  match a, b with
  | [], [] => true
  | x :: a', y :: b' => (x =? y) && eqb_str a' b'
  | _, _ => false
  end.

Infix "==?" := eqb_str (at level 70, no associativity).

(** [tokens == target] on lists of strings. *)
Fixpoint eqb_strs (a b : list str) : bool :=
  match a, b with
  | [], [] => true
  | x :: a', y :: b' => (x ==? y) && eqb_strs a' b'
  | _, _ => false
  end.

(** [sep.join(parts)]. *)
Fixpoint join (sep : str) (parts : list str) : str :=
  match parts with
  | [] => []
  | [p] => p
  | p :: rest => p ++ sep ++ join sep rest
  end.

(** ** Exceptions *)

Inductive exn := ValueError | IndexError.

Inductive result (A : Type) :=
  | Ok (a : A)
  | Raise (e : exn).

Arguments Ok {A} a.
Arguments Raise {A} e.

Definition bind {A B : Type} (m : result A) (k : A -> result B) : result B :=
  match m with
  | Ok a => k a
  | Raise e => Raise e
  end.

Notation "x <- m ;; k" := (bind m (fun x => k))
  (at level 61, m at next level, right associativity).

(** [ord(ch)] of a one-character string, and [chr(i)], which raises
    [ValueError] outside [range(0x110000)]. *)
Definition ord (ch : Z) : Z := ch.

Definition chr (i : Z) : result str :=
  if (0 <=? i) && (i <? 0x110000) then Ok [i] else Raise ValueError.

(** [tokens[i]], which raises [IndexError] out of range. *)
Definition index {A : Type} (l : list A) (i : nat) : result A :=
  match nth_error l i with
  | Some a => Ok a
  | None => Raise IndexError
  end.

(** ** [katakana_to_hiragana] *)

(** The loop [for ch in text], with the list [converted_chars] it appends to. *)
Fixpoint katakana_loop (text : str) (converted_chars : list str) : result (list str) :=
  match text with
  | [] => Ok converted_chars
  | ch :: rest =>
      let code := ord ch in
      if (0x30A1 <=? code) && (code <=? 0x30F3) then
        c <- chr (code - 0x60) ;;
        katakana_loop rest (converted_chars ++ [c])
      else if [ch] ==? utf8 "ヵ" then
        katakana_loop rest (converted_chars ++ [utf8 "ゕ"])
      else if [ch] ==? utf8 "ヶ" then
        katakana_loop rest (converted_chars ++ [utf8 "ゖ"])
      else
        katakana_loop rest (converted_chars ++ [[ch]])
  end.

Definition katakana_to_hiragana (text : str) : result str :=
  converted_chars <- katakana_loop text [] ;;
  Ok (join [] converted_chars).

(** ** The Unicode data the library calls read *)

(** The rows of the Unicode Character Database behind [unicodedata] and
    [str.lower].  A code point with no row has no decomposition, combining
    class 0, no composite, is its own lower case, and is neither cased nor
    case-ignorable. *)
Record UCD := {
  (** a code point and its full compatibility decomposition *)
  decomposition : list (Z * str);
  (** a code point and its canonical combining class *)
  combining : list (Z * Z);
  (** first and second code point, and their primary composite *)
  composition : list (Z * Z * Z);
  (** a code point and its full lower-case mapping *)
  lowercase : list (Z * str);
  (** ranges of the cased code points *)
  cased : list (Z * Z);
  (** ranges of the case-ignorable code points *)
  case_ignorable : list (Z * Z)
}.

Fixpoint assoc {V : Type} (k : Z) (rows : list (Z * V)) : option V :=
  match rows with
  | [] => None
  | (k', v) :: rest => if k =? k' then Some v else assoc k rest
  end.

Fixpoint assoc2 (a b : Z) (rows : list (Z * Z * Z)) : option Z :=
  match rows with
  | [] => None
  | (a', b', v) :: rest => if (a =? a') && (b =? b') then Some v else assoc2 a b rest
  end.

Definition in_ranges (c : Z) (ranges : list (Z * Z)) : bool :=
  existsb (fun r => (fst r <=? c) && (c <=? snd r)) ranges.

(** [str.isspace] on one character, which is also the class [\s] of [re]
    on a [str] pattern. *)
Definition isspace (c : Z) : bool :=
  in_ranges c
    [(0x09, 0x0D); (0x1C, 0x20); (0x85, 0x85); (0xA0, 0xA0); (0x1680, 0x1680);
     (0x2000, 0x200A); (0x2028, 0x2029); (0x202F, 0x202F); (0x205F, 0x205F);
     (0x3000, 0x3000)].

(** Hangul syllables decompose and compose by arithmetic. *)
Definition SBase := 0xAC00.
Definition LBase := 0x1100.
Definition VBase := 0x1161.
Definition TBase := 0x11A7.
Definition LCount := 19.
Definition VCount := 21.
Definition TCount := 28.
Definition NCount := 588.
Definition SCount := 11172.

Definition hangul_decomposition (s : Z) : str :=
  let SIndex := s - SBase in
  let L := LBase + SIndex / NCount in
  let V := VBase + (SIndex mod NCount) / TCount in
  let T := TBase + SIndex mod TCount in
  if T =? TBase then [L; V] else [L; V; T].

Definition hangul_composite (a b : Z) : option Z :=
  if (LBase <=? a) && (a <? LBase + LCount) && (VBase <=? b) && (b <? VBase + VCount)
  then Some (SBase + ((a - LBase) * VCount + (b - VBase)) * TCount)
  else if (SBase <=? a) && (a <? SBase + SCount) && ((a - SBase) mod TCount =? 0)
          && (TBase <? b) && (b <? TBase + TCount)
  then Some (a + (b - TBase))
  else None.

Section Library.

Variable ucd : UCD.

Definition ccc (c : Z) : Z :=
  match assoc c (combining ucd) with
  | Some k => k
  | None => 0
  end.

Definition decompose_char (c : Z) : str :=
  if (SBase <=? c) && (c <? SBase + SCount) then hangul_decomposition c
  else match assoc c (decomposition ucd) with
       | Some d => d
       | None => [c]
       end.

(** Canonical ordering: [c] moves left over the marks of a higher class.
    [out_rev] is the text so far, last character first. *)
Fixpoint reorder_insert (c k : Z) (out_rev : str) : str :=
  match out_rev with
  | [] => [c]
  | d :: rest =>
      if (0 <? k) && (k <? ccc d) then d :: reorder_insert c k rest
      else c :: out_rev
  end.

Definition nfkd (text : str) : str :=
  rev (fold_left
         (fun out_rev c =>
            fold_left (fun o d => reorder_insert d (ccc d) o) (decompose_char c) out_rev)
         text []).

Definition primary_composite (a b : Z) : option Z :=
  match hangul_composite a b with
  | Some s => Some s
  | None => assoc2 a b (composition ucd)
  end.

(** Canonical composition.  [starter] is the last starter, [tail_rev] the
    marks kept after it (last first, [last] the class of the latest), and
    [done_rev] the text before the starter. *)
Fixpoint compose_loop (text done_rev : str) (starter : option Z) (tail_rev : str)
    (last : Z) : str :=
  match text with
  | [] =>
      rev (tail_rev ++ match starter with Some s => s :: done_rev | None => done_rev end)
  | c :: rest =>
      let k := ccc c in
      match starter with
      | None =>
          if k =? 0 then compose_loop rest done_rev (Some c) [] 0
          else compose_loop rest (c :: done_rev) None [] 0
      | Some s =>
          let blocked := match tail_rev with [] => false | _ :: _ => k <=? last end in
          match (if blocked then None else primary_composite s c) with
          | Some sc => compose_loop rest done_rev (Some sc) tail_rev last
          | None =>
              if k =? 0 then compose_loop rest (tail_rev ++ s :: done_rev) (Some c) [] 0
              else compose_loop rest done_rev starter (c :: tail_rev) k
          end
      end
  end.

(** [unicodedata.normalize("NFKC", text)]: compatibility decomposition,
    canonical ordering, canonical composition. *)
Definition normalize_nfkc (text : str) : str :=
  compose_loop (nfkd text) [] None [] 0.

(** [str.lower]: the full lower-case mapping of each character, and the
    final-sigma rule for U+03A3. *)
Definition lower_char (c : Z) : str :=
  match assoc c (lowercase ucd) with
  | Some l => l
  | None => [c]
  end.

Fixpoint first_not_ignorable (text : str) : option Z :=
  match text with
  | [] => None
  | c :: rest => if in_ranges c (case_ignorable ucd) then first_not_ignorable rest else Some c
  end.

Definition final_sigma (before_rev after : str) : bool :=
  match first_not_ignorable before_rev with
  | Some c =>
      in_ranges c (cased ucd)
      && match first_not_ignorable after with
         | Some d => negb (in_ranges d (cased ucd))
         | None => true
         end
  | None => false
  end.

Fixpoint lower_from (before_rev text : str) : str :=
  match text with
  | [] => []
  | c :: rest =>
      (if c =? 0x3A3 then [if final_sigma before_rev rest then 0x3C2 else 0x3C3]
       else lower_char c)
      ++ lower_from (c :: before_rev) rest
  end.

Definition lower (text : str) : str := lower_from [] text.

(** [to_hiragana_lower] *)
Definition to_hiragana_lower (text : str) : result str :=
  let text := normalize_nfkc text in
  text <- katakana_to_hiragana text ;;
  Ok (lower text).

End Library.

(** ** [str.strip] and the regular expressions of [re] *)

Fixpoint lstrip (text : str) : str :=
  match text with
  | [] => []
  | c :: rest => if isspace c then lstrip rest else text
  end.

(** [text.strip()] *)
Definition strip (text : str) : str := rev (lstrip (rev (lstrip text))).

(** The syntax of the patterns the program compiles.  A repetition bears on
    a character class, which is all the program's patterns repeat. *)
Inductive regex :=
  | Chars (p : Z -> bool)                                   (* [...], \s, . *)
  | Lit (l : str)                                           (* a literal *)
  | Cat (r1 r2 : regex)
  | Alt (r1 r2 : regex)                                     (* r1|r2 *)
  | Repeat (p : Z -> bool) (lo : nat) (hi : option nat) (lazy : bool)
  | Group (n : nat) (r : regex)                             (* (...) *)
  | Bol                                                     (* ^ *)
  | Eol.                                                    (* $ *)

Infix "@@" := Cat (at level 60, right associativity).

(** The groups of a match, latest first. *)
Definition captures := list (nat * str).

Fixpoint strip_prefix (l s : str) : option str :=
  match l, s with
  | [], _ => Some s
  | x :: l', y :: s' => if x =? y then strip_prefix l' s' else None
  | _ :: _, [] => None
  end.

Section Backtracking.

Variable A : Type.

(** Greedy repetition: as many characters as possible first, one fewer on
    failure of the rest [k] of the pattern. *)
Fixpoint repeat_greedy (p : Z -> bool) (lo : nat) (hi : option nat) (s : str) (pos : nat)
    (k : str -> nat -> option A) {struct s} : option A :=
  match s, hi with
  | _, Some O => if (lo =? 0)%nat then k s pos else None
  | c :: s', _ =>
      if p c then
        match repeat_greedy p (pred lo) (option_map pred hi) s' (S pos) k with
        | Some a => Some a
        | None => if (lo =? 0)%nat then k s pos else None
        end
      else if (lo =? 0)%nat then k s pos else None
  | [], _ => if (lo =? 0)%nat then k s pos else None
  end.

(** Lazy repetition: as few characters as possible first. *)
Fixpoint repeat_lazy (p : Z -> bool) (lo : nat) (hi : option nat) (s : str) (pos : nat)
    (k : str -> nat -> option A) {struct s} : option A :=
  match (if (lo =? 0)%nat then k s pos else None) with
  | Some a => Some a
  | None =>
      match s, hi with
      | _, Some O => None
      | c :: s', _ =>
          if p c then repeat_lazy p (pred lo) (option_map pred hi) s' (S pos) k else None
      | [], _ => None
      end
  end.

(** The backtracking matcher: [exec r s pos caps k] matches [r] at position
    [pos], where [s] is the rest of the subject, and hands what follows the
    match to the rest [k] of the pattern; the first success is the match. *)
Fixpoint exec (r : regex) (s : str) (pos : nat) (caps : captures)
    (k : str -> nat -> captures -> option A) : option A :=
  match r with
  | Chars p =>
      match s with
      | c :: s' => if p c then k s' (S pos) caps else None
      | [] => None
      end
  | Lit l =>
      match strip_prefix l s with
      | Some s' => k s' (pos + length l)%nat caps
      | None => None
      end
  | Cat r1 r2 => exec r1 s pos caps (fun s' pos' caps' => exec r2 s' pos' caps' k)
  | Alt r1 r2 =>
      match exec r1 s pos caps k with
      | Some a => Some a
      | None => exec r2 s pos caps k
      end
  | Repeat p lo hi lazy =>
      (if lazy then repeat_lazy else repeat_greedy) p lo hi s pos
        (fun s' pos' => k s' pos' caps)
  | Group n r1 =>
      exec r1 s pos caps
        (fun s' pos' caps' => k s' pos' ((n, firstn (pos' - pos) s) :: caps'))
  | Bol => if (pos =? 0)%nat then k s pos caps else None
  | Eol =>
      match s with
      | [] => k s pos caps
      | [c] => if c =? 10 then k s pos caps else None
      | _ => None
      end
  end.

End Backtracking.

Arguments exec {A} r s pos caps k.

(** [re.match(pattern, string)]: the groups of the match, or no match. *)
Definition re_match (r : regex) (s : str) : option captures :=
  exec r s 0 [] (fun _ _ caps => Some caps).

(** [m.group(n)], [None] when the group took no part in the match. *)
Fixpoint group (m : captures) (n : nat) : option str :=
  match m with
  | [] => None
  | (n', g) :: rest => if (n =? n')%nat then Some g else group rest n
  end.

(** The length of the match of [r] that starts at [pos]. *)
Definition match_length (r : regex) (s : str) (pos : nat) : option nat :=
  exec r s pos [] (fun _ pos' _ => Some (pos' - pos)%nat).

(** [re.sub(pattern, repl, text)] for a plain [repl]; [skip] counts the
    characters of the current match still to pass over. *)
Fixpoint sub_loop (r : regex) (repl : str) (skip : nat) (s : str) (pos : nat) : str :=
  match skip with
  | S n =>
      match s with
      | [] => []
      | _ :: s' => sub_loop r repl n s' (S pos)
      end
  | O =>
      match match_length r s pos, s with
      | Some (S n), _ :: s' => repl ++ sub_loop r repl n s' (S pos)
      | Some _, c :: s' => repl ++ c :: sub_loop r repl 0 s' (S pos)
      | Some _, [] => repl
      | None, c :: s' => c :: sub_loop r repl 0 s' (S pos)
      | None, [] => []
      end
  end.

Definition re_sub (r : regex) (repl text : str) : str := sub_loop r repl 0 text 0.

(** [re.split(pattern, text)]; [cur_rev] is the piece being read, last
    character first. *)
Fixpoint split_loop (r : regex) (skip : nat) (s : str) (pos : nat) (cur_rev : str)
    : list str :=
  match skip with
  | S n =>
      match s with
      | [] => [rev cur_rev]
      | _ :: s' => split_loop r n s' (S pos) cur_rev
      end
  | O =>
      match match_length r s pos, s with
      | Some (S n), _ :: s' => rev cur_rev :: split_loop r n s' (S pos) []
      | Some _, c :: s' => rev cur_rev :: split_loop r 0 s' (S pos) [c]
      | Some _, [] => [rev cur_rev; []]
      | None, c :: s' => split_loop r 0 s' (S pos) (c :: cur_rev)
      | None, [] => [rev cur_rev]
      end
  end.

Definition re_split (r : regex) (text : str) : list str := split_loop r 0 text 0 [].

(** The character classes and the patterns of the program. *)
Definition dot (c : Z) : bool := negb (c =? 10).
Definition not_a_z (c : Z) : bool := negb ((0x61 <=? c) && (c <=? 0x7A)).
Definition full_stop (c : Z) : bool := (c =? 0x3002) || (c =? 0x2E).
Definition period (c : Z) : bool := c =? 0x2E.

(** [\s+], [\s*] and [[^a-z]] *)
Definition spaces1 : regex := Repeat isspace 1 None false.
Definition spaces0 : regex := Repeat isspace 0 None false.
Definition non_letter : regex := Chars not_a_z.

(** [^(?:わたし|私|ぼく|わたくし)\s*は\s*(.+?)\s*です[。\.]?\s*$] *)
Definition jp_pat : regex :=
  Bol @@ Alt (Lit (utf8 "わたし")) (Alt (Lit (utf8 "私")) (Alt (Lit (utf8 "ぼく"))
                                                           (Lit (utf8 "わたくし"))))
  @@ spaces0 @@ Lit (utf8 "は") @@ spaces0
  @@ Group 1 (Repeat dot 1 None true)
  @@ spaces0 @@ Lit (utf8 "です") @@ Repeat full_stop 0 (Some 1%nat) false
  @@ spaces0 @@ Eol.

(** [^(?:watashi|boku|watakushi)\s+wa\s+(.+?)\s+desu\.?$] *)
Definition romaji_pat : regex :=
  Bol @@ Alt (Lit (utf8 "watashi")) (Alt (Lit (utf8 "boku")) (Lit (utf8 "watakushi")))
  @@ spaces1 @@ Lit (utf8 "wa") @@ spaces1
  @@ Group 1 (Repeat dot 1 None true)
  @@ spaces1 @@ Lit (utf8 "desu") @@ Repeat period 0 (Some 1%nat) false
  @@ Eol.

(** [collapse_spaces] and [strip_all_spaces] *)
Definition collapse_spaces (text : str) : str :=
  strip (re_sub spaces1 (utf8 " ") text).

Definition strip_all_spaces (text : str) : str :=
  re_sub spaces1 (utf8 "") text.

(** ** The checkers *)

(** [str(idx)] inside an f-string. *)
Fixpoint digits (d : Decimal.uint) : str :=
  match d with
  | Decimal.Nil => []
  | Decimal.D0 d => 0x30 :: digits d
  | Decimal.D1 d => 0x31 :: digits d
  | Decimal.D2 d => 0x32 :: digits d
  | Decimal.D3 d => 0x33 :: digits d
  | Decimal.D4 d => 0x34 :: digits d
  | Decimal.D5 d => 0x35 :: digits d
  | Decimal.D6 d => 0x36 :: digits d
  | Decimal.D7 d => 0x37 :: digits d
  | Decimal.D8 d => 0x38 :: digits d
  | Decimal.D9 d => 0x39 :: digits d
  end.

Definition format_int (n : nat) : str := digits (Nat.to_uint n).

(** [if name:] on a string or [None]. *)
Definition truthy (name : option str) : bool :=
  match name with
  | Some (_ :: _) => true
  | _ => false
  end.

(** [list(token)]: the one-character strings of a string. *)
Definition chars (token : str) : list str := map (fun c => [c]) token.

Definition target : list str :=
  [utf8 "あ"; utf8 "い"; utf8 "う"; utf8 "え"; utf8 "お"].

(** The f-string of the partial hint: position [idx], expected vowel [exp]. *)
Definition hint_item (idx : nat) (exp : str) : str :=
  format_int idx ++ utf8 "번째는 " ++ exp.

(** The loop over [enumerate(zip(tokens, target), start=1)], with the list
    [wrong] it appends to. *)
Fixpoint wrong_loop (idx : nat) (pairs : list (str * str)) (wrong : list str) : list str :=
  match pairs with
  | [] => wrong
  | (got, exp) :: rest =>
      if negb (got ==? exp)
      then wrong_loop (S idx) rest (wrong ++ [hint_item idx exp])
      else wrong_loop (S idx) rest wrong
  end.

Section Checkers.

Variable ucd : UCD.

Definition check_greeting (answer : str) (allow_romaji : bool) : result (bool * str) :=
  hira <- to_hiragana_lower ucd answer ;;
  let hira_nospace := strip_all_spaces hira in
  let correct := utf8 "こんにちは" in
  if hira_nospace ==? correct then
    Ok (true, utf8 "좋아요! こんにちは")
  else if utf8 "こんにちわ" ==? hira_nospace then
    Ok (false, utf8 "거의 맞았어요! 'wa'는 は로 씁니다: こんにちは")
  else
    let otherwise := Ok (false, utf8 "힌트: 낮 인사(こんにちは). 'wa' 표기는 は를 사용해요.") in
    if allow_romaji then
      let rom := lower ucd (normalize_nfkc ucd answer) in
      let rom := re_sub non_letter (utf8 "") rom in
      if rom ==? utf8 "konnichiwa" then Ok (true, utf8 "좋아요! こんにちは")
      else otherwise
    else otherwise.

Definition check_self_intro (answer : str) (allow_romaji : bool)
    : result (bool * str * option str) :=
  let raw := normalize_nfkc ucd answer in
  kana <- katakana_to_hiragana raw ;;
  let m := re_match jp_pat (collapse_spaces kana) in
  let otherwise :=
    Ok (false, utf8 "패턴: わたしは [이름] です。 (romaji: watashi wa [name] desu)", None) in
  let romaji_path :=
    if allow_romaji then
      let rom := collapse_spaces (lower ucd raw) in
      match re_match romaji_pat rom with
      | Some m2 =>
          let name := group m2 1 in
          Ok (true, utf8 "좋아요! 자연스러워요.", name)
      | None => otherwise
      end
    else otherwise in
  match m with
  | Some m =>
      let name := group m 1 in
      if truthy name then Ok (true, utf8 "좋아요! 자연스러워요.", name)
      else romaji_path
  | None => romaji_path
  end.

Definition check_vowels (answer : str) (allow_romaji : bool) : result (bool * str) :=
  let raw := normalize_nfkc ucd answer in
  hira <- katakana_to_hiragana raw ;;
  let tokens := filter (fun t => negb (t ==? [])) (re_split spaces1 (strip hira)) in
  tokens <- (if (List.length tokens =? 1)%nat
             then t0 <- index tokens 0 ;; Ok (chars t0)
             else Ok tokens) ;;
  if eqb_strs tokens target then
    Ok (true, utf8 "완벽해요! あ い う え お")
  else
    let otherwise := Ok (false, utf8 "정답: あ い う え お (romaji: a i u e o)") in
    let partial_hint :=
      if (List.length tokens =? 5)%nat then
        let wrong := wrong_loop 1 (combine tokens target) [] in
        match wrong with
        | _ :: _ => Ok (false, utf8 "힌트: " ++ join (utf8 ", ") wrong)
        | [] => otherwise
        end
      else otherwise in
    if allow_romaji then
      let rom := re_sub non_letter (utf8 "") (lower ucd raw) in
      if rom ==? utf8 "aiueo" then Ok (true, utf8 "완벽해요! あ い う え お")
      else partial_hint
    else partial_hint.

End Checkers.

(** ** Rows of the Unicode Character Database

    The rows (Unicode 14.0), as [unicodedata] and [str.lower] hold them, of
    Basic Latin, U+00A0, the capital and small sigmas, CJK Symbols and
    Punctuation, Hiragana, Katakana, Halfwidth and Fullwidth Forms, U+79C1,
    and of the caron U+030C with the letter U+01F0, together with every
    code point that their decompositions, their composites and their
    lower-case mappings reach.  Normalization and lower-casing of a text
    over these code points and Hangul syllables read no other row. *)

Definition decomposition_rows : list (Z * str) :=
  [(0x00A0, [0x0020]); (0x0100, [0x0041; 0x0304]); (0x0101, [0x0061; 0x0304]);
   (0x010C, [0x0043; 0x030C]); (0x010D, [0x0063; 0x030C]); (0x010E, [0x0044; 0x030C]);
   (0x010F, [0x0064; 0x030C]); (0x0112, [0x0045; 0x0304]); (0x0113, [0x0065; 0x0304]);
   (0x011A, [0x0045; 0x030C]); (0x011B, [0x0065; 0x030C]); (0x012A, [0x0049; 0x0304]);
   (0x012B, [0x0069; 0x0304]); (0x013D, [0x004C; 0x030C]); (0x013E, [0x006C; 0x030C]);
   (0x0147, [0x004E; 0x030C]); (0x0148, [0x006E; 0x030C]); (0x014C, [0x004F; 0x0304]);
   (0x014D, [0x006F; 0x0304]); (0x0158, [0x0052; 0x030C]); (0x0159, [0x0072; 0x030C]);
   (0x0160, [0x0053; 0x030C]); (0x0161, [0x0073; 0x030C]); (0x0164, [0x0054; 0x030C]);
   (0x0165, [0x0074; 0x030C]); (0x016A, [0x0055; 0x0304]); (0x016B, [0x0075; 0x0304]);
   (0x017D, [0x005A; 0x030C]); (0x017E, [0x007A; 0x030C]); (0x01CD, [0x0041; 0x030C]);
   (0x01CE, [0x0061; 0x030C]); (0x01CF, [0x0049; 0x030C]); (0x01D0, [0x0069; 0x030C]);
   (0x01D1, [0x004F; 0x030C]); (0x01D2, [0x006F; 0x030C]); (0x01D3, [0x0055; 0x030C]);
   (0x01D4, [0x0075; 0x030C]); (0x01E6, [0x0047; 0x030C]); (0x01E7, [0x0067; 0x030C]);
   (0x01E8, [0x004B; 0x030C]); (0x01E9, [0x006B; 0x030C]); (0x01F0, [0x006A; 0x030C]);
   (0x021E, [0x0048; 0x030C]); (0x021F, [0x0068; 0x030C]); (0x0232, [0x0059; 0x0304]);
   (0x0233, [0x0079; 0x0304]); (0x1E20, [0x0047; 0x0304]); (0x1E21, [0x0067; 0x0304]);
   (0x3000, [0x0020]); (0x3036, [0x3012]); (0x3038, [0x5341]);
   (0x3039, [0x5344]); (0x303A, [0x5345]); (0x304C, [0x304B; 0x3099]);
   (0x304E, [0x304D; 0x3099]); (0x3050, [0x304F; 0x3099]); (0x3052, [0x3051; 0x3099]);
   (0x3054, [0x3053; 0x3099]); (0x3056, [0x3055; 0x3099]); (0x3058, [0x3057; 0x3099]);
   (0x305A, [0x3059; 0x3099]); (0x305C, [0x305B; 0x3099]); (0x305E, [0x305D; 0x3099]);
   (0x3060, [0x305F; 0x3099]); (0x3062, [0x3061; 0x3099]); (0x3065, [0x3064; 0x3099]);
   (0x3067, [0x3066; 0x3099]); (0x3069, [0x3068; 0x3099]); (0x3070, [0x306F; 0x3099]);
   (0x3071, [0x306F; 0x309A]); (0x3073, [0x3072; 0x3099]); (0x3074, [0x3072; 0x309A]);
   (0x3076, [0x3075; 0x3099]); (0x3077, [0x3075; 0x309A]); (0x3079, [0x3078; 0x3099]);
   (0x307A, [0x3078; 0x309A]); (0x307C, [0x307B; 0x3099]); (0x307D, [0x307B; 0x309A]);
   (0x3094, [0x3046; 0x3099]); (0x309B, [0x0020; 0x3099]); (0x309C, [0x0020; 0x309A]);
   (0x309E, [0x309D; 0x3099]); (0x309F, [0x3088; 0x308A]); (0x30AC, [0x30AB; 0x3099]);
   (0x30AE, [0x30AD; 0x3099]); (0x30B0, [0x30AF; 0x3099]); (0x30B2, [0x30B1; 0x3099]);
   (0x30B4, [0x30B3; 0x3099]); (0x30B6, [0x30B5; 0x3099]); (0x30B8, [0x30B7; 0x3099]);
   (0x30BA, [0x30B9; 0x3099]); (0x30BC, [0x30BB; 0x3099]); (0x30BE, [0x30BD; 0x3099]);
   (0x30C0, [0x30BF; 0x3099]); (0x30C2, [0x30C1; 0x3099]); (0x30C5, [0x30C4; 0x3099]);
   (0x30C7, [0x30C6; 0x3099]); (0x30C9, [0x30C8; 0x3099]); (0x30D0, [0x30CF; 0x3099]);
   (0x30D1, [0x30CF; 0x309A]); (0x30D3, [0x30D2; 0x3099]); (0x30D4, [0x30D2; 0x309A]);
   (0x30D6, [0x30D5; 0x3099]); (0x30D7, [0x30D5; 0x309A]); (0x30D9, [0x30D8; 0x3099]);
   (0x30DA, [0x30D8; 0x309A]); (0x30DC, [0x30DB; 0x3099]); (0x30DD, [0x30DB; 0x309A]);
   (0x30F4, [0x30A6; 0x3099]); (0x30F7, [0x30EF; 0x3099]); (0x30F8, [0x30F0; 0x3099]);
   (0x30F9, [0x30F1; 0x3099]); (0x30FA, [0x30F2; 0x3099]); (0x30FE, [0x30FD; 0x3099]);
   (0x30FF, [0x30B3; 0x30C8]); (0xFF01, [0x0021]); (0xFF02, [0x0022]);
   (0xFF03, [0x0023]); (0xFF04, [0x0024]); (0xFF05, [0x0025]);
   (0xFF06, [0x0026]); (0xFF07, [0x0027]); (0xFF08, [0x0028]);
   (0xFF09, [0x0029]); (0xFF0A, [0x002A]); (0xFF0B, [0x002B]);
   (0xFF0C, [0x002C]); (0xFF0D, [0x002D]); (0xFF0E, [0x002E]);
   (0xFF0F, [0x002F]); (0xFF10, [0x0030]); (0xFF11, [0x0031]);
   (0xFF12, [0x0032]); (0xFF13, [0x0033]); (0xFF14, [0x0034]);
   (0xFF15, [0x0035]); (0xFF16, [0x0036]); (0xFF17, [0x0037]);
   (0xFF18, [0x0038]); (0xFF19, [0x0039]); (0xFF1A, [0x003A]);
   (0xFF1B, [0x003B]); (0xFF1C, [0x003C]); (0xFF1D, [0x003D]);
   (0xFF1E, [0x003E]); (0xFF1F, [0x003F]); (0xFF20, [0x0040]);
   (0xFF21, [0x0041]); (0xFF22, [0x0042]); (0xFF23, [0x0043]);
   (0xFF24, [0x0044]); (0xFF25, [0x0045]); (0xFF26, [0x0046]);
   (0xFF27, [0x0047]); (0xFF28, [0x0048]); (0xFF29, [0x0049]);
   (0xFF2A, [0x004A]); (0xFF2B, [0x004B]); (0xFF2C, [0x004C]);
   (0xFF2D, [0x004D]); (0xFF2E, [0x004E]); (0xFF2F, [0x004F]);
   (0xFF30, [0x0050]); (0xFF31, [0x0051]); (0xFF32, [0x0052]);
   (0xFF33, [0x0053]); (0xFF34, [0x0054]); (0xFF35, [0x0055]);
   (0xFF36, [0x0056]); (0xFF37, [0x0057]); (0xFF38, [0x0058]);
   (0xFF39, [0x0059]); (0xFF3A, [0x005A]); (0xFF3B, [0x005B]);
   (0xFF3C, [0x005C]); (0xFF3D, [0x005D]); (0xFF3E, [0x005E]);
   (0xFF3F, [0x005F]); (0xFF40, [0x0060]); (0xFF41, [0x0061]);
   (0xFF42, [0x0062]); (0xFF43, [0x0063]); (0xFF44, [0x0064]);
   (0xFF45, [0x0065]); (0xFF46, [0x0066]); (0xFF47, [0x0067]);
   (0xFF48, [0x0068]); (0xFF49, [0x0069]); (0xFF4A, [0x006A]);
   (0xFF4B, [0x006B]); (0xFF4C, [0x006C]); (0xFF4D, [0x006D]);
   (0xFF4E, [0x006E]); (0xFF4F, [0x006F]); (0xFF50, [0x0070]);
   (0xFF51, [0x0071]); (0xFF52, [0x0072]); (0xFF53, [0x0073]);
   (0xFF54, [0x0074]); (0xFF55, [0x0075]); (0xFF56, [0x0076]);
   (0xFF57, [0x0077]); (0xFF58, [0x0078]); (0xFF59, [0x0079]);
   (0xFF5A, [0x007A]); (0xFF5B, [0x007B]); (0xFF5C, [0x007C]);
   (0xFF5D, [0x007D]); (0xFF5E, [0x007E]); (0xFF5F, [0x2985]);
   (0xFF60, [0x2986]); (0xFF61, [0x3002]); (0xFF62, [0x300C]);
   (0xFF63, [0x300D]); (0xFF64, [0x3001]); (0xFF65, [0x30FB]);
   (0xFF66, [0x30F2]); (0xFF67, [0x30A1]); (0xFF68, [0x30A3]);
   (0xFF69, [0x30A5]); (0xFF6A, [0x30A7]); (0xFF6B, [0x30A9]);
   (0xFF6C, [0x30E3]); (0xFF6D, [0x30E5]); (0xFF6E, [0x30E7]);
   (0xFF6F, [0x30C3]); (0xFF70, [0x30FC]); (0xFF71, [0x30A2]);
   (0xFF72, [0x30A4]); (0xFF73, [0x30A6]); (0xFF74, [0x30A8]);
   (0xFF75, [0x30AA]); (0xFF76, [0x30AB]); (0xFF77, [0x30AD]);
   (0xFF78, [0x30AF]); (0xFF79, [0x30B1]); (0xFF7A, [0x30B3]);
   (0xFF7B, [0x30B5]); (0xFF7C, [0x30B7]); (0xFF7D, [0x30B9]);
   (0xFF7E, [0x30BB]); (0xFF7F, [0x30BD]); (0xFF80, [0x30BF]);
   (0xFF81, [0x30C1]); (0xFF82, [0x30C4]); (0xFF83, [0x30C6]);
   (0xFF84, [0x30C8]); (0xFF85, [0x30CA]); (0xFF86, [0x30CB]);
   (0xFF87, [0x30CC]); (0xFF88, [0x30CD]); (0xFF89, [0x30CE]);
   (0xFF8A, [0x30CF]); (0xFF8B, [0x30D2]); (0xFF8C, [0x30D5]);
   (0xFF8D, [0x30D8]); (0xFF8E, [0x30DB]); (0xFF8F, [0x30DE]);
   (0xFF90, [0x30DF]); (0xFF91, [0x30E0]); (0xFF92, [0x30E1]);
   (0xFF93, [0x30E2]); (0xFF94, [0x30E4]); (0xFF95, [0x30E6]);
   (0xFF96, [0x30E8]); (0xFF97, [0x30E9]); (0xFF98, [0x30EA]);
   (0xFF99, [0x30EB]); (0xFF9A, [0x30EC]); (0xFF9B, [0x30ED]);
   (0xFF9C, [0x30EF]); (0xFF9D, [0x30F3]); (0xFF9E, [0x3099]);
   (0xFF9F, [0x309A]); (0xFFA0, [0x1160]); (0xFFA1, [0x1100]);
   (0xFFA2, [0x1101]); (0xFFA3, [0x11AA]); (0xFFA4, [0x1102]);
   (0xFFA5, [0x11AC]); (0xFFA6, [0x11AD]); (0xFFA7, [0x1103]);
   (0xFFA8, [0x1104]); (0xFFA9, [0x1105]); (0xFFAA, [0x11B0]);
   (0xFFAB, [0x11B1]); (0xFFAC, [0x11B2]); (0xFFAD, [0x11B3]);
   (0xFFAE, [0x11B4]); (0xFFAF, [0x11B5]); (0xFFB0, [0x111A]);
   (0xFFB1, [0x1106]); (0xFFB2, [0x1107]); (0xFFB3, [0x1108]);
   (0xFFB4, [0x1121]); (0xFFB5, [0x1109]); (0xFFB6, [0x110A]);
   (0xFFB7, [0x110B]); (0xFFB8, [0x110C]); (0xFFB9, [0x110D]);
   (0xFFBA, [0x110E]); (0xFFBB, [0x110F]); (0xFFBC, [0x1110]);
   (0xFFBD, [0x1111]); (0xFFBE, [0x1112]); (0xFFC2, [0x1161]);
   (0xFFC3, [0x1162]); (0xFFC4, [0x1163]); (0xFFC5, [0x1164]);
   (0xFFC6, [0x1165]); (0xFFC7, [0x1166]); (0xFFCA, [0x1167]);
   (0xFFCB, [0x1168]); (0xFFCC, [0x1169]); (0xFFCD, [0x116A]);
   (0xFFCE, [0x116B]); (0xFFCF, [0x116C]); (0xFFD2, [0x116D]);
   (0xFFD3, [0x116E]); (0xFFD4, [0x116F]); (0xFFD5, [0x1170]);
   (0xFFD6, [0x1171]); (0xFFD7, [0x1172]); (0xFFDA, [0x1173]);
   (0xFFDB, [0x1174]); (0xFFDC, [0x1175]); (0xFFE0, [0x00A2]);
   (0xFFE1, [0x00A3]); (0xFFE2, [0x00AC]); (0xFFE3, [0x0020; 0x0304]);
   (0xFFE4, [0x00A6]); (0xFFE5, [0x00A5]); (0xFFE6, [0x20A9]);
   (0xFFE8, [0x2502]); (0xFFE9, [0x2190]); (0xFFEA, [0x2191]);
   (0xFFEB, [0x2192]); (0xFFEC, [0x2193]); (0xFFED, [0x25A0]);
   (0xFFEE, [0x25CB])].

Definition combining_rows : list (Z * Z) :=
  [(0x0304, 230); (0x030C, 230); (0x302A, 218); (0x302B, 228); (0x302C, 232); (0x302D, 222);
   (0x302E, 224); (0x302F, 224); (0x3099, 8); (0x309A, 8)].

Definition composition_rows : list (Z * Z * Z) :=
  [(0x0041, 0x0304, 0x0100); (0x0041, 0x030C, 0x01CD); (0x0043, 0x030C, 0x010C);
   (0x0044, 0x030C, 0x010E); (0x0045, 0x0304, 0x0112); (0x0045, 0x030C, 0x011A);
   (0x0047, 0x0304, 0x1E20); (0x0047, 0x030C, 0x01E6); (0x0048, 0x030C, 0x021E);
   (0x0049, 0x0304, 0x012A); (0x0049, 0x030C, 0x01CF); (0x004B, 0x030C, 0x01E8);
   (0x004C, 0x030C, 0x013D); (0x004E, 0x030C, 0x0147); (0x004F, 0x0304, 0x014C);
   (0x004F, 0x030C, 0x01D1); (0x0052, 0x030C, 0x0158); (0x0053, 0x030C, 0x0160);
   (0x0054, 0x030C, 0x0164); (0x0055, 0x0304, 0x016A); (0x0055, 0x030C, 0x01D3);
   (0x0059, 0x0304, 0x0232); (0x005A, 0x030C, 0x017D); (0x0061, 0x0304, 0x0101);
   (0x0061, 0x030C, 0x01CE); (0x0063, 0x030C, 0x010D); (0x0064, 0x030C, 0x010F);
   (0x0065, 0x0304, 0x0113); (0x0065, 0x030C, 0x011B); (0x0067, 0x0304, 0x1E21);
   (0x0067, 0x030C, 0x01E7); (0x0068, 0x030C, 0x021F); (0x0069, 0x0304, 0x012B);
   (0x0069, 0x030C, 0x01D0); (0x006A, 0x030C, 0x01F0); (0x006B, 0x030C, 0x01E9);
   (0x006C, 0x030C, 0x013E); (0x006E, 0x030C, 0x0148); (0x006F, 0x0304, 0x014D);
   (0x006F, 0x030C, 0x01D2); (0x0072, 0x030C, 0x0159); (0x0073, 0x030C, 0x0161);
   (0x0074, 0x030C, 0x0165); (0x0075, 0x0304, 0x016B); (0x0075, 0x030C, 0x01D4);
   (0x0079, 0x0304, 0x0233); (0x007A, 0x030C, 0x017E); (0x3046, 0x3099, 0x3094);
   (0x304B, 0x3099, 0x304C); (0x304D, 0x3099, 0x304E); (0x304F, 0x3099, 0x3050);
   (0x3051, 0x3099, 0x3052); (0x3053, 0x3099, 0x3054); (0x3055, 0x3099, 0x3056);
   (0x3057, 0x3099, 0x3058); (0x3059, 0x3099, 0x305A); (0x305B, 0x3099, 0x305C);
   (0x305D, 0x3099, 0x305E); (0x305F, 0x3099, 0x3060); (0x3061, 0x3099, 0x3062);
   (0x3064, 0x3099, 0x3065); (0x3066, 0x3099, 0x3067); (0x3068, 0x3099, 0x3069);
   (0x306F, 0x3099, 0x3070); (0x306F, 0x309A, 0x3071); (0x3072, 0x3099, 0x3073);
   (0x3072, 0x309A, 0x3074); (0x3075, 0x3099, 0x3076); (0x3075, 0x309A, 0x3077);
   (0x3078, 0x3099, 0x3079); (0x3078, 0x309A, 0x307A); (0x307B, 0x3099, 0x307C);
   (0x307B, 0x309A, 0x307D); (0x309D, 0x3099, 0x309E); (0x30A6, 0x3099, 0x30F4);
   (0x30AB, 0x3099, 0x30AC); (0x30AD, 0x3099, 0x30AE); (0x30AF, 0x3099, 0x30B0);
   (0x30B1, 0x3099, 0x30B2); (0x30B3, 0x3099, 0x30B4); (0x30B5, 0x3099, 0x30B6);
   (0x30B7, 0x3099, 0x30B8); (0x30B9, 0x3099, 0x30BA); (0x30BB, 0x3099, 0x30BC);
   (0x30BD, 0x3099, 0x30BE); (0x30BF, 0x3099, 0x30C0); (0x30C1, 0x3099, 0x30C2);
   (0x30C4, 0x3099, 0x30C5); (0x30C6, 0x3099, 0x30C7); (0x30C8, 0x3099, 0x30C9);
   (0x30CF, 0x3099, 0x30D0); (0x30CF, 0x309A, 0x30D1); (0x30D2, 0x3099, 0x30D3);
   (0x30D2, 0x309A, 0x30D4); (0x30D5, 0x3099, 0x30D6); (0x30D5, 0x309A, 0x30D7);
   (0x30D8, 0x3099, 0x30D9); (0x30D8, 0x309A, 0x30DA); (0x30DB, 0x3099, 0x30DC);
   (0x30DB, 0x309A, 0x30DD); (0x30EF, 0x3099, 0x30F7); (0x30F0, 0x3099, 0x30F8);
   (0x30F1, 0x3099, 0x30F9); (0x30F2, 0x3099, 0x30FA); (0x30FD, 0x3099, 0x30FE)].

Definition lowercase_rows : list (Z * str) :=
  [(0x0041, [0x0061]); (0x0042, [0x0062]); (0x0043, [0x0063]); (0x0044, [0x0064]);
   (0x0045, [0x0065]); (0x0046, [0x0066]); (0x0047, [0x0067]); (0x0048, [0x0068]);
   (0x0049, [0x0069]); (0x004A, [0x006A]); (0x004B, [0x006B]); (0x004C, [0x006C]);
   (0x004D, [0x006D]); (0x004E, [0x006E]); (0x004F, [0x006F]); (0x0050, [0x0070]);
   (0x0051, [0x0071]); (0x0052, [0x0072]); (0x0053, [0x0073]); (0x0054, [0x0074]);
   (0x0055, [0x0075]); (0x0056, [0x0076]); (0x0057, [0x0077]); (0x0058, [0x0078]);
   (0x0059, [0x0079]); (0x005A, [0x007A]); (0x0100, [0x0101]); (0x010C, [0x010D]);
   (0x010E, [0x010F]); (0x0112, [0x0113]); (0x011A, [0x011B]); (0x012A, [0x012B]);
   (0x013D, [0x013E]); (0x0147, [0x0148]); (0x014C, [0x014D]); (0x0158, [0x0159]);
   (0x0160, [0x0161]); (0x0164, [0x0165]); (0x016A, [0x016B]); (0x017D, [0x017E]);
   (0x01CD, [0x01CE]); (0x01CF, [0x01D0]); (0x01D1, [0x01D2]); (0x01D3, [0x01D4]);
   (0x01E6, [0x01E7]); (0x01E8, [0x01E9]); (0x021E, [0x021F]); (0x0232, [0x0233]);
   (0x03A3, [0x03C3]); (0x1E20, [0x1E21]); (0xFF21, [0xFF41]); (0xFF22, [0xFF42]);
   (0xFF23, [0xFF43]); (0xFF24, [0xFF44]); (0xFF25, [0xFF45]); (0xFF26, [0xFF46]);
   (0xFF27, [0xFF47]); (0xFF28, [0xFF48]); (0xFF29, [0xFF49]); (0xFF2A, [0xFF4A]);
   (0xFF2B, [0xFF4B]); (0xFF2C, [0xFF4C]); (0xFF2D, [0xFF4D]); (0xFF2E, [0xFF4E]);
   (0xFF2F, [0xFF4F]); (0xFF30, [0xFF50]); (0xFF31, [0xFF51]); (0xFF32, [0xFF52]);
   (0xFF33, [0xFF53]); (0xFF34, [0xFF54]); (0xFF35, [0xFF55]); (0xFF36, [0xFF56]);
   (0xFF37, [0xFF57]); (0xFF38, [0xFF58]); (0xFF39, [0xFF59]); (0xFF3A, [0xFF5A])].

Definition cased_rows : list (Z * Z) :=
  [(0x0041, 0x005A); (0x0061, 0x007A); (0x0100, 0x0101); (0x010C, 0x010F);
   (0x0112, 0x0113); (0x011A, 0x011B); (0x012A, 0x012B); (0x013D, 0x013E);
   (0x0147, 0x0148); (0x014C, 0x014D); (0x0158, 0x0159); (0x0160, 0x0161);
   (0x0164, 0x0165); (0x016A, 0x016B); (0x017D, 0x017E); (0x01CD, 0x01D4);
   (0x01E6, 0x01E9); (0x01F0, 0x01F0); (0x021E, 0x021F); (0x0232, 0x0233);
   (0x03A3, 0x03A3); (0x03C2, 0x03C3); (0x1E20, 0x1E21); (0xFF21, 0xFF3A);
   (0xFF41, 0xFF5A)].

Definition case_ignorable_rows : list (Z * Z) :=
  [(0x0027, 0x0027); (0x002E, 0x002E); (0x003A, 0x003A); (0x005E, 0x005E);
   (0x0060, 0x0060); (0x0304, 0x0304); (0x030C, 0x030C); (0x3005, 0x3005);
   (0x302A, 0x302D); (0x3031, 0x3035); (0x303B, 0x303B); (0x3099, 0x309E);
   (0x30FC, 0x30FE); (0xFF07, 0xFF07); (0xFF0E, 0xFF0E); (0xFF1A, 0xFF1A);
   (0xFF3E, 0xFF3E); (0xFF40, 0xFF40); (0xFF70, 0xFF70); (0xFF9E, 0xFF9F);
   (0xFFE3, 0xFFE3)].

Definition ucd_rows : UCD :=
  {| decomposition := decomposition_rows;
     combining := combining_rows;
     composition := composition_rows;
     lowercase := lowercase_rows;
     cased := cased_rows;
     case_ignorable := case_ignorable_rows |}.

(** ** The interactive flow

    What the program writes and reads is explicit: [stdout] holds, in
    order, what [print] and the prompt of [input] write and the pauses of
    [time.sleep]; [stdin] holds what the calls of [input] will meet.  A
    delay is in milliseconds (0.25 s is 250). *)

(** What a call of [input] meets: a line typed, or Ctrl-C while it waits.
    With nothing left to read, [input] raises [EOFError]. *)
Inductive event :=
  | Line (text : str)
  | Interrupt.

Inductive output :=
  | Print (text : str)        (* print(text) *)
  | Prompt (text : str)       (* the prompt of input(text) *)
  | Sleep (ms : Z).           (* time.sleep *)

Record world := { stdin : list event; stdout : list output }.

Record Session := { delay : Z; explain : str; score : nat; total : nat }.

(** What the interactive flow can raise: what a checker raises, and
    [EOFError] from [input]; [KeyboardInterrupt] is caught where [input] is
    called. *)
Inductive raised :=
  | CheckerRaised (e : exn)
  | EOFError.

Inductive run (A : Type) :=
  | Returns (a : A) (s : Session) (w : world)
  | Raises (e : raised) (s : Session) (w : world).

Arguments Returns {A} a s w.
Arguments Raises {A} e s w.

(** [d.get(key, default)] on a dict with string keys. *)
Fixpoint dict_get {V : Type} (d : list (str * V)) (key : str) (default : V) : V :=
  match d with
  | [] => default
  | (k, v) :: rest => if key ==? k then v else dict_get rest key default
  end.

(** [Session.__init__] *)
Definition new_session (speed explain : str) : Session :=
  {| delay := dict_get [(utf8 "fast", 0); (utf8 "normal", 250); (utf8 "slow", 600)] speed 250;
     explain := explain;
     score := 0;
     total := 0 |}.

(** What [Session.say] writes after [out]. *)
Definition say (s : Session) (text : str) (out : list output) : list output :=
  out ++ Print text :: (if 0 <? delay s then [Sleep (delay s)] else []).

(** The loop [while True] of [Session.ask]; each turn reads one event. *)
Fixpoint ask_loop (prompt : str) (checker : str -> result (bool * str)) (reveal : option str)
    (tries : nat) (s : Session) (out : list output) (inp : list event) : run unit :=
  let out := say s prompt out ++ [Prompt (utf8 "> ")] in
  match inp with
  | [] => Raises EOFError s {| stdin := []; stdout := out |}
  | Interrupt :: inp =>
      Returns tt s
        {| stdin := inp; stdout := say s (utf8 "중단했습니다. 다시 이어가도 좋아요.") out |}
  | Line text :: inp =>
      let user := strip text in
      match checker user with
      | Raise e => Raises (CheckerRaised e) s {| stdin := inp; stdout := out |}
      | Ok (ok, msg) =>
          if ok then
            let out := say s msg out in
            Returns tt
              {| delay := delay s; explain := explain s; score := score s + 1;
                 total := total s |}
              {| stdin := inp; stdout := out |}
          else
            let tries := (tries + 1)%nat in
            if (tries =? 1)%nat then
              let out := say s msg out in
              let out := say s (utf8 "한 번 더 시도해볼까요?") out in
              ask_loop prompt checker reveal tries s out inp
            else if (tries =? 2)%nat then
              let out := say s msg out in
              let out := match reveal with
                         | Some ((_ :: _) as r) => say s (utf8 "참고: " ++ r) out
                         | _ => out
                         end in
              let out := say s (utf8 "마지막으로 한 번 더!") out in
              ask_loop prompt checker reveal tries s out inp
            else
              let out := say s (utf8 "다음엔 더 잘할 수 있어요. 넘어갈게요.") out in
              let out := match reveal with
                         | Some ((_ :: _) as r) => say s (utf8 "정답 예: " ++ r) out
                         | _ => out
                         end in
              Returns tt s {| stdin := inp; stdout := out |}
      end
  end.

(** [Session.ask] *)
Definition ask (prompt : str) (checker : str -> result (bool * str)) (reveal : option str)
    (s : Session) (w : world) : run unit :=
  let tries := 0%nat in
  let s := {| delay := delay s; explain := explain s; score := score s;
              total := total s + 1 |} in
  ask_loop prompt checker reveal tries s (stdout w) (stdin w).

(** Sequencing in the interactive flow. *)
Definition and_then {A B : Type} (m : run A) (k : A -> Session -> world -> run B) : run B :=
  match m with
  | Returns a s w => k a s w
  | Raises e s w => Raises e s w
  end.

Definition says (text : str) (s : Session) (w : world) : run unit :=
  Returns tt s {| stdin := stdin w; stdout := say s text (stdout w) |}.

Section Flow.

Variable ucd : UCD.

(** [run_lesson_one], for the runs in which Ctrl-C arrives only while
    [input] waits: a [KeyboardInterrupt] that arrives during [print] or
    [time.sleep], outside the [try] of [ask], leaves [run_lesson_one] for
    [main] to catch, and is not a run of this definition. *)
Definition run_lesson_one (speed explain : str) (allow_romaji : bool)
    (name_hint : option str) (w : world) : run Z :=
  let s := new_session speed explain in
  and_then (says (utf8 "세션 1 — 인사, 자기소개, 히라가나 모음") s w) (fun _ s w =>
  and_then
    (if explain ==? utf8 "normal" then
       and_then (says (utf8 "발음: a / i / u / e / o") s w) (fun _ s w =>
       and_then (says (utf8 "핵심 인사: こんにちは | ありがとう | すみません | はい/いいえ") s w)
         (fun _ s w =>
       says (utf8 "자기소개: わたしは [이름] です。 (watashi wa [name] desu)") s w))
     else Returns tt s w) (fun _ s w =>
  let q1_checker (user : str) : result (bool * str) :=
    r <- check_greeting ucd user allow_romaji ;;
    let (ok, msg) := r in Ok (ok, msg) in
  let reveal_q1 := utf8 "こんにちは (romaji: konnichiwa)" in
  and_then (ask (utf8 "1) 일본어로 '안녕하세요'를 쓰세요.") q1_checker (Some reveal_q1) s w)
    (fun _ s w =>
  let display_name :=
    match name_hint with
    | Some ((_ :: _) as n) => n
    | _ => utf8 "(당신의 이름)"
    end in
  let prompt_q2 := utf8 "2) '저는 " ++ display_name ++ utf8 "입니다'를 일본어로 쓰세요." in
  let q2_checker (user : str) : result (bool * str) :=
    r <- check_self_intro ucd user allow_romaji ;;
    let '(ok, msg, _name) := r in Ok (ok, msg) in
  let reveal_q2 := utf8 "わたしは [이름] です。 (romaji: watashi wa [name] desu.)" in
  and_then (ask prompt_q2 q2_checker (Some reveal_q2) s w) (fun _ s w =>
  let q3_checker (user : str) : result (bool * str) :=
    r <- check_vowels ucd user allow_romaji ;;
    let (ok, msg) := r in Ok (ok, msg) in
  let reveal_q3 := utf8 "あ い う え お (romaji: a i u e o)" in
  and_then
    (ask (utf8 "3) a i u e o에 해당하는 히라가나 5개를 공백으로 적으세요.") q3_checker
       (Some reveal_q3) s w) (fun _ s w =>
  and_then (says (utf8 "") s w) (fun _ s w =>
  and_then
    (says (utf8 "점수: " ++ format_int (score s) ++ utf8 " / " ++ format_int (total s)) s w)
    (fun _ s w =>
  and_then
    (if (score s =? total s)%nat then
       says (utf8 "아주 좋아요! 다음에는 ㄱ) 숫자 1-10, ㄴ) 간단한 질문 응답으로 가봐요.") s w
     else says (utf8 "충분히 잘했어요. 틀린 문제는 다음에 다시 복습해요.") s w) (fun _ s w =>
  Returns 0 s w)))))))).

(** ** [self_check] *)

(** The closure [ensure], with the list [failures] it appends to. *)
Definition ensure (cond : bool) (label : str) (failures : list str) : list str :=
  if negb cond then failures ++ [label] else failures.

(** [self_check]: the exit code and what it prints. *)
Definition self_check : result (Z * list output) :=
  let failures := [] in
  r <- check_greeting ucd (utf8 "こんにちは") false ;;
  let failures := ensure (fst r) (utf8 "greeting_hira_correct") failures in
  r <- check_greeting ucd (utf8 "こんにちわ") false ;;
  let failures := ensure (negb (fst r)) (utf8 "greeting_common_mistake_rejected") failures in
  r <- check_greeting ucd (utf8 "konnichiwa") true ;;
  let failures := ensure (fst r) (utf8 "greeting_romaji_correct") failures in
  r <- check_self_intro ucd (utf8 "わたしは ボブ です。") false ;;
  let failures := ensure (fst (fst r)) (utf8 "selfintro_jp") failures in
  r <- check_self_intro ucd (utf8 "watashi wa bob desu.") true ;;
  let failures := ensure (fst (fst r)) (utf8 "selfintro_romaji") failures in
  r <- check_self_intro ucd (utf8 "わたし ボブ です") false ;;
  let failures := ensure (negb (fst (fst r))) (utf8 "selfintro_missing_wa") failures in
  r <- check_vowels ucd (utf8 "あ い う え お") false ;;
  let failures := ensure (fst r) (utf8 "vowels_hira") failures in
  r <- check_vowels ucd (utf8 "aiueo") true ;;
  let failures := ensure (fst r) (utf8 "vowels_romaji") failures in
  r <- check_vowels ucd (utf8 "あ う い え お") false ;;
  let failures := ensure (negb (fst r)) (utf8 "vowels_wrong_order") failures in
  match failures with
  | _ :: _ =>
      Ok (1, Print (utf8 "SELF-CHECK FAILURES:")
             :: map (fun f => Print (utf8 "- " ++ f)) failures)
  | [] => Ok (0, [Print (utf8 "Self-check passed.")])
  end.

End Flow.

(** ** Definitions the statements use *)

(** What the spec says of one character of [katakana_to_hiragana]. *)
Inductive folds_to : Z -> Z -> Prop :=
  | fold_block c : 0x30A1 <= c <= 0x30F3 -> folds_to c (c - 0x60)
  | fold_small_ka : folds_to 0x30F5 0x3095
  | fold_small_ke : folds_to 0x30F6 0x3096
  | fold_other c :
      ~ (0x30A1 <= c <= 0x30F3) -> c <> 0x30F5 -> c <> 0x30F6 -> folds_to c c.

(** The characters [katakana_to_hiragana] changes. *)
Definition folded (c : Z) : bool :=
  ((0x30A1 <=? c) && (c <=? 0x30F3)) || (c =? 0x30F5) || (c =? 0x30F6).

(** [c] is its own lower case. *)
Definition lower_fixed (ucd : UCD) (c : Z) : bool :=
  negb (c =? 0x3A3)
  && match assoc c (lowercase ucd) with
     | Some l => l ==? [c]
     | None => true
     end.

(** A property of the lower-case rows of the Unicode Character Database:
    no katakana letter that [katakana_to_hiragana] changes has a row or is
    in the lower case of a row, and the lower case of a row is made of
    characters that are their own lower case, as are the two small sigmas. *)
Definition lowercase_closed (ucd : UCD) : bool :=
  forallb (fun row =>
             negb (folded (fst row))
             && forallb (fun d => lower_fixed ucd d && negb (folded d)) (snd row))
          (lowercase ucd)
  && lower_fixed ucd 0x3C2 && lower_fixed ucd 0x3C3.

(** The tokens [check_vowels] compares with [target], from the folded text:
    the non-empty pieces between runs of white space, a single piece being
    split into its characters. *)
Definition resplit (tokens : list str) : list str :=
  match tokens with
  | [t] => chars t
  | _ => tokens
  end.

Definition tokens_of (hira : str) : list str :=
  resplit (filter (fun t => negb (t ==? [])) (re_split spaces1 (strip hira))).

(** [r] has no group. *)
Fixpoint groupless (r : regex) : bool :=
  match r with
  | Cat r1 r2 | Alt r1 r2 => groupless r1 && groupless r2
  | Group _ _ => false
  | _ => true
  end.

(** [g] is a part of [s]: some characters of [s] in a row. *)
Definition part_of (g s : str) : Prop := exists pre post, s = pre ++ g ++ post.

(** The positional diff of [check_vowels]: the positions, counted from
    [idx], where the token is not the expected vowel, with that vowel. *)
Fixpoint mismatches (idx : nat) (pairs : list (str * str)) : list (nat * str) :=
  match pairs with
  | [] => []
  | (got, exp) :: rest =>
      if negb (got ==? exp) then (idx, exp) :: mismatches (S idx) rest
      else mismatches (S idx) rest
  end.

(** A mismatch of the partial hint, as the hint prints it. *)
Definition hint_of (w : nat * str) : str := hint_item (fst w) (snd w).

(** The basic Latin small letters, which [[^a-z]] leaves in place. *)
Definition a_z (c : Z) : bool := (0x61 <=? c) && (c <=? 0x7A).

(** The length of the white space a text starts with. *)
Fixpoint leading_spaces (s : str) : nat :=
  match s with
  | [] => 0
  | c :: rest => if isspace c then S (leading_spaces rest) else 0
  end.

(** Runs of white space replaced by one space each; [in_run] tells that the
    character before was white space. *)
Fixpoint squeeze (in_run : bool) (s : str) : str :=
  match s with
  | [] => []
  | c :: rest =>
      if isspace c then (if in_run then squeeze true rest else 0x20 :: squeeze true rest)
      else c :: squeeze false rest
  end.

(** Whether one of the first [n] events is a line that passes [checker],
    the events before it being lines that fail. *)
Fixpoint answered (checker : str -> result (bool * str)) (n : nat) (inp : list event) : bool :=
  match n, inp with
  | S n', Line text :: rest =>
      match checker (strip text) with
      | Ok (true, _) => true
      | Ok (false, _) => answered checker n' rest
      | Raise _ => false
      end
  | _, _ => false
  end.

(** What a run of [ask_loop] with [n] tries left leaves behind, from the
    session [s], the output [out] and the input [inp]. *)
Definition ask_post (checker : str -> result (bool * str)) (n : nat) (s : Session)
    (out : list output) (inp : list event) (r : run unit) : Prop :=
  match r with
  | Returns _ s' w' =>
      total s' = total s
      /\ score s' = (score s + if answered checker n inp then 1 else 0)%nat
      /\ delay s' = delay s /\ explain s' = explain s
      /\ (exists used, inp = used ++ stdin w' /\ (1 <= List.length used <= n)%nat)
      /\ exists written, stdout w' = out ++ written
  | Raises e s' w' =>
      s' = s
      /\ answered checker n inp = false
      /\ match e with
         | EOFError => stdin w' = [] /\ (List.length inp < n)%nat
         | CheckerRaised x =>
             exists text, In (Line text) inp /\ checker (strip text) = Raise x
         end
  end.

(** * Properties *)

(** ** Strings *)

Lemma eqb_str_eq (a b : str) : (a ==? b) = true <-> a = b.
Proof.
  revert b; induction a as [|x a IH]; intros [|y b]; simpl; split; intros H;
    try reflexivity; try discriminate.
  - apply andb_true_iff in H as [Hx Hab].
    apply Z.eqb_eq in Hx; apply IH in Hab; now subst.
  - injection H as -> ->.
    apply andb_true_iff; split; [apply Z.eqb_refl | now apply IH].
Qed.

Lemma eqb_str_refl (a : str) : (a ==? a) = true.
Proof. now apply eqb_str_eq. Qed.

Lemma eqb_str_neq (a b : str) : (a ==? b) = false <-> a <> b.
Proof.
  split.
  - intros H E; apply eqb_str_eq in E; congruence.
  - intros H; destruct (a ==? b) eqn:E; [apply eqb_str_eq in E; contradiction | reflexivity].
Qed.

Lemma eqb_strs_eq (a b : list str) : eqb_strs a b = true <-> a = b.
Proof.
  revert b; induction a as [|x a IH]; intros [|y b]; simpl; split; intros H;
    try reflexivity; try discriminate.
  - apply andb_true_iff in H as [Hx Hab].
    apply eqb_str_eq in Hx; apply IH in Hab; now subst.
  - injection H as -> ->.
    apply andb_true_iff; split; [apply eqb_str_refl | now apply IH].
Qed.

Lemma eqb_strs_neq (a b : list str) : a <> b -> eqb_strs a b = false.
Proof.
  intros H; destruct (eqb_strs a b) eqn:E; [apply eqb_strs_eq in E; contradiction | reflexivity].
Qed.

Lemma join_chars (cs : str) : join [] (chars cs) = cs.
Proof.
  induction cs as [|c [|d cs] IH]; try reflexivity.
  change (join [] (chars (c :: d :: cs))) with ([c] ++ [] ++ join [] (chars (d :: cs))).
  now rewrite IH.
Qed.

(** ** [katakana_to_hiragana] *)

Lemma utf8_small_ka : utf8 "ヵ" = [0x30F5] /\ utf8 "ゕ" = [0x3095].
Proof. split; reflexivity. Qed.

Lemma utf8_small_ke : utf8 "ヶ" = [0x30F6] /\ utf8 "ゖ" = [0x3096].
Proof. split; reflexivity. Qed.

(** The loop appends one character for each character it reads, the one
    the spec names, and raises nothing. *)
Lemma katakana_loop_folds (text : str) :
  forall converted_chars,
  exists out,
    katakana_loop text converted_chars = Ok (converted_chars ++ chars out)
    /\ Forall2 folds_to text out.
Proof.
  destruct utf8_small_ka as [Ka Ka'], utf8_small_ke as [Ke Ke'].
  induction text as [|ch rest IH]; intros acc.
  - exists []; split; [simpl; now rewrite app_nil_r | constructor].
  - cbn [katakana_loop]; unfold ord.
    destruct ((0x30A1 <=? ch) && (ch <=? 0x30F3)) eqn:Hblock.
    + apply andb_true_iff in Hblock as [Hlo Hhi].
      apply Z.leb_le in Hlo, Hhi.
      unfold chr.
      replace ((0 <=? ch - 0x60) && (ch - 0x60 <? 0x110000)) with true
        by (symmetry; apply andb_true_iff; split; [apply Z.leb_le | apply Z.ltb_lt]; lia).
      cbn [bind].
      destruct (IH (acc ++ ([ch - 0x60] : str) :: nil)) as (out & Hout & Hfold).
      exists ((ch - 0x60) :: out); split.
      * rewrite Hout, <- app_assoc; reflexivity.
      * constructor; [apply fold_block; lia | exact Hfold].
    + assert (Hnot : ~ (0x30A1 <= ch <= 0x30F3)).
      { intros [Hlo Hhi]; apply Z.leb_le in Hlo, Hhi.
        rewrite Hlo, Hhi in Hblock; discriminate. }
      rewrite Ka, Ka', Ke, Ke'; cbn [eqb_str]; rewrite !andb_true_r.
      destruct (ch =? 0x30F5) eqn:Hka; [apply Z.eqb_eq in Hka; subst ch|].
      { destruct (IH (acc ++ ([0x3095] : str) :: nil)) as (out & Hout & Hfold).
        exists (0x3095 :: out); split.
        - rewrite Hout, <- app_assoc; reflexivity.
        - constructor; [apply fold_small_ka | exact Hfold]. }
      destruct (ch =? 0x30F6) eqn:Hke; [apply Z.eqb_eq in Hke; subst ch|].
      { destruct (IH (acc ++ ([0x3096] : str) :: nil)) as (out & Hout & Hfold).
        exists (0x3096 :: out); split.
        - rewrite Hout, <- app_assoc; reflexivity.
        - constructor; [apply fold_small_ke | exact Hfold]. }
      apply Z.eqb_neq in Hka, Hke.
      destruct (IH (acc ++ [[ch]])) as (out & Hout & Hfold).
      exists (ch :: out); split.
      * rewrite Hout, <- app_assoc; reflexivity.
      * constructor; [now apply fold_other | exact Hfold].
Qed.

Lemma katakana_to_hiragana_folds (text : str) :
  exists out, katakana_to_hiragana text = Ok out /\ Forall2 folds_to text out.
Proof.
  destruct (katakana_loop_folds text []) as (out & Hout & Hfold).
  exists out; split; [|exact Hfold].
  unfold katakana_to_hiragana; rewrite Hout; cbn [bind app].
  now rewrite join_chars.
Qed.

(** C1. For every input string, [katakana_to_hiragana] returns a string
    with, for each character of the input in order, the character at code
    point minus 0x60 when the code point lies in U+30A1..U+30F3, U+3095 for
    U+30F5, U+3096 for U+30F6, and the character itself otherwise; it
    raises nothing.  An input of katakana, small ka and ke, kanji, Latin
    letters, punctuation and hiragana illustrates it. *)
Theorem katakana_to_hiragana_spec :
  (forall text : str,
     exists out, katakana_to_hiragana text = Ok out /\ Forall2 folds_to text out)
  /\ katakana_to_hiragana (utf8 "カタカナ ヵヶ 私 abc! ひら")
     = Ok (utf8 "かたかな ゕゖ 私 abc! ひら").
Proof.
  split; [exact katakana_to_hiragana_folds | reflexivity].
Qed.

(** ** [re.sub] with the patterns of the program *)

Lemma match_length_non_letter (s : str) (pos : nat) :
  match_length non_letter s pos
  = match s with
    | c :: _ => if not_a_z c then Some 1%nat else None
    | [] => None
    end.
Proof.
  unfold match_length, non_letter; cbn [exec].
  destruct s as [|c s']; [reflexivity|].
  destruct (not_a_z c); [|reflexivity].
  f_equal; lia.
Qed.

(** Deleting what is not a basic Latin small letter keeps the letters. *)
Lemma re_sub_non_letter (text : str) :
  re_sub non_letter (utf8 "") text = filter a_z text.
Proof.
  change (utf8 "") with (@nil Z); unfold re_sub.
  enough (H : forall pos, sub_loop non_letter [] 0 text pos = filter a_z text) by apply H.
  induction text as [|c rest IH]; intros pos; cbn [sub_loop filter];
    rewrite match_length_non_letter; [reflexivity|].
  unfold not_a_z; fold (a_z c).
  destruct (a_z c); cbn [negb app]; now rewrite IH.
Qed.

Lemma repeat_greedy_spaces (s : str) :
  forall lo pos pos0,
    repeat_greedy nat isspace lo None s pos (fun _ p => Some (p - pos0)%nat)
    = if (lo <=? leading_spaces s)%nat
      then Some (pos + leading_spaces s - pos0)%nat
      else None.
Proof.
  induction s as [|c rest IH]; intros lo pos pos0; cbn [repeat_greedy leading_spaces].
  - destruct lo; cbn; [f_equal; lia | reflexivity].
  - destruct (isspace c).
    + rewrite IH; cbn [option_map].
      destruct lo as [|lo]; cbn [pred Nat.leb Nat.eqb].
      * f_equal; lia.
      * destruct (lo <=? leading_spaces rest)%nat; [f_equal; lia | reflexivity].
    + destruct lo; cbn; [f_equal; lia | reflexivity].
Qed.

Lemma match_length_spaces1 (s : str) (pos : nat) :
  match_length spaces1 s pos
  = if (1 <=? leading_spaces s)%nat then Some (leading_spaces s) else None.
Proof.
  unfold match_length, spaces1; cbn [exec].
  rewrite repeat_greedy_spaces.
  destruct (1 <=? leading_spaces s)%nat; [f_equal; lia | reflexivity].
Qed.

Lemma sub_loop_spaces1_delete (s : str) :
  forall skip pos,
    (skip <= leading_spaces s)%nat ->
    sub_loop spaces1 [] skip s pos = filter (fun c => negb (isspace c)) s.
Proof.
  induction s as [|c rest IH]; intros skip pos Hskip.
  - destruct skip; [|reflexivity].
    cbn [sub_loop]; now rewrite match_length_spaces1.
  - cbn [leading_spaces] in Hskip; cbn [filter].
    destruct skip as [|skip]; cbn [sub_loop].
    + rewrite match_length_spaces1; cbn [leading_spaces].
      destruct (isspace c); cbn [Nat.leb negb app].
      * apply IH; lia.
      * f_equal; apply IH; lia.
    + destruct (isspace c); [|lia].
      cbn [negb]; apply IH; lia.
Qed.

(** [strip_all_spaces] keeps exactly the characters that are not white space. *)
Lemma strip_all_spaces_filter (text : str) :
  strip_all_spaces text = filter (fun c => negb (isspace c)) text.
Proof.
  unfold strip_all_spaces, re_sub; change (utf8 "") with (@nil Z).
  apply sub_loop_spaces1_delete; lia.
Qed.

Lemma a_z_not_space (c : Z) : a_z c = true -> isspace c = false.
Proof.
  unfold a_z, isspace, in_ranges; cbn [existsb fst snd]; intros H.
  apply andb_true_iff in H as [Hlo Hhi]; apply Z.leb_le in Hlo, Hhi.
  repeat match goal with
         | |- context [(?a <=? c) && (c <=? ?b)] =>
             replace ((a <=? c) && (c <=? b)) with false
               by (symmetry; apply andb_false_iff;
                   destruct (Z.leb_spec a c), (Z.leb_spec c b); auto; lia)
         end.
  reflexivity.
Qed.

Lemma has_letter_strip_all_spaces (text : str) :
  existsb a_z (strip_all_spaces text) = existsb a_z text.
Proof.
  rewrite strip_all_spaces_filter.
  induction text as [|c rest IH]; [reflexivity|].
  cbn [filter existsb].
  destruct (a_z c) eqn:Hc.
  - now rewrite (a_z_not_space c Hc); cbn [negb existsb]; rewrite Hc.
  - destruct (isspace c); cbn [negb existsb]; now rewrite ?Hc, IH.
Qed.

Lemma has_letter_filter (text : str) :
  existsb a_z text = negb (filter a_z text ==? []).
Proof.
  induction text as [|c rest IH]; [reflexivity|].
  cbn [filter existsb]; destruct (a_z c); [reflexivity | exact IH].
Qed.

(** ** [katakana_to_hiragana] and the characters it changes *)

Lemma folds_to_not_folded (c d : Z) : folds_to c d -> folded d = false.
Proof.
  unfold folded; intros [c' Hc | | | c' Hc Hka Hke]; try reflexivity.
  - repeat (apply orb_false_iff; split); try (apply Z.eqb_neq; lia).
    apply andb_false_iff; left; apply Z.leb_gt; lia.
  - repeat (apply orb_false_iff; split); try (now apply Z.eqb_neq).
    apply andb_false_iff.
    destruct (Z.leb_spec 0x30A1 c'); [right; apply Z.leb_gt; lia | now left].
Qed.

Lemma folds_to_unfolded (c d : Z) : folds_to c d -> folded c = false -> d = c.
Proof.
  unfold folded; intros [c' Hc | | | c' Hc Hka Hke] H; try discriminate; [|reflexivity].
  apply orb_false_iff in H as [H _]; apply orb_false_iff in H as [H _].
  apply andb_false_iff in H as [H | H]; [apply Z.leb_gt in H | apply Z.leb_gt in H]; lia.
Qed.

Lemma folds_to_all_not_folded (text out : str) :
  Forall2 folds_to text out -> Forall (fun d => folded d = false) out.
Proof.
  induction 1 as [|c d text out Hcd _ IH]; constructor;
    [exact (folds_to_not_folded c d Hcd) | exact IH].
Qed.

(** A text with no character to change is returned as it is. *)
Lemma katakana_to_hiragana_unfolded (text : str) :
  Forall (fun c => folded c = false) text -> katakana_to_hiragana text = Ok text.
Proof.
  intros Hall.
  destruct (katakana_to_hiragana_folds text) as (out & Hout & Hfold).
  rewrite Hout; f_equal; clear Hout.
  induction Hfold as [|c d text out Hcd _ IH]; [reflexivity|].
  inversion Hall as [|? ? Hc Hrest]; subst.
  now rewrite (folds_to_unfolded c d Hcd Hc), (IH Hrest).
Qed.

(** ** [str.lower] *)

Lemma assoc_In {V : Type} (k : Z) (rows : list (Z * V)) (v : V) :
  assoc k rows = Some v -> In (k, v) rows.
Proof.
  induction rows as [|[k' v'] rows IH]; cbn [assoc]; [discriminate|].
  destruct (k =? k') eqn:E.
  - apply Z.eqb_eq in E; intros [= ->]; subst; now left.
  - intros H; right; now apply IH.
Qed.

Section LowerCase.

Variable ucd : UCD.
Hypothesis lowercase_rows_closed : lowercase_closed ucd = true.

Let fixed (d : Z) : Prop := lower_fixed ucd d = true /\ folded d = false.

Lemma lowercase_row (c : Z) (l : str) :
  assoc c (lowercase ucd) = Some l -> folded c = false /\ Forall fixed l.
Proof.
  intros Hrow; apply assoc_In in Hrow.
  unfold lowercase_closed in lowercase_rows_closed.
  apply andb_true_iff in lowercase_rows_closed as [H _].
  apply andb_true_iff in H as [H _].
  rewrite forallb_forall in H; specialize (H _ Hrow); cbn [fst snd] in H.
  apply andb_true_iff in H as [Hc Hl].
  split; [now apply negb_true_iff in Hc|].
  apply Forall_forall; intros d Hd.
  rewrite forallb_forall in Hl; specialize (Hl d Hd).
  apply andb_true_iff in Hl as [Hfix Hfold].
  split; [exact Hfix | now apply negb_true_iff in Hfold].
Qed.

Lemma small_sigmas_fixed : fixed 0x3C2 /\ fixed 0x3C3.
Proof.
  unfold lowercase_closed in lowercase_rows_closed.
  apply andb_true_iff in lowercase_rows_closed as [H H3].
  apply andb_true_iff in H as [_ H2].
  now repeat split.
Qed.

Lemma lower_char_folded (c : Z) : folded c = true -> lower_char ucd c = [c].
Proof.
  intros Hc; unfold lower_char.
  destruct (assoc c (lowercase ucd)) as [l|] eqn:Hrow; [|reflexivity].
  apply lowercase_row in Hrow as [Hc' _]; congruence.
Qed.

Lemma lower_char_fixed (c : Z) :
  (c =? 0x3A3) = false -> folded c = false -> Forall fixed (lower_char ucd c).
Proof.
  intros Hsigma Hc; unfold lower_char.
  destruct (assoc c (lowercase ucd)) as [l|] eqn:Hrow.
  - now apply lowercase_row in Hrow.
  - constructor; [|constructor].
    split; [|exact Hc].
    unfold lower_fixed; now rewrite Hsigma, Hrow.
Qed.

Lemma fixed_lower_char (d : Z) :
  fixed d -> (d =? 0x3A3) = false /\ lower_char ucd d = [d].
Proof.
  intros [Hd _]; unfold lower_fixed in Hd.
  apply andb_true_iff in Hd as [Hsigma Hrow].
  apply negb_true_iff in Hsigma; split; [exact Hsigma|].
  unfold lower_char; destruct (assoc d (lowercase ucd)); [|reflexivity].
  now apply eqb_str_eq in Hrow.
Qed.

(** What one character becomes in [lower_from]. *)
Lemma lower_image_fixed (c : Z) (before_rev after : str) :
  folded c = false ->
  Forall fixed (if c =? 0x3A3
                then [if final_sigma ucd before_rev after then 0x3C2 else 0x3C3]
                else lower_char ucd c).
Proof.
  intros Hc; destruct (c =? 0x3A3) eqn:Hsigma.
  - destruct small_sigmas_fixed as [H2 H3].
    destruct (final_sigma ucd before_rev after); constructor; auto.
  - now apply lower_char_fixed.
Qed.

Lemma lower_from_fixed (img : str) :
  Forall fixed img ->
  forall before_rev text,
    lower_from ucd before_rev (img ++ text)
    = img ++ lower_from ucd (rev img ++ before_rev) text.
Proof.
  induction 1 as [|d img Hd _ IH]; intros before_rev text; [reflexivity|].
  apply fixed_lower_char in Hd as [Hsigma Hrow].
  cbn [app lower_from rev]; rewrite Hsigma, Hrow, IH, <- app_assoc; reflexivity.
Qed.

(** Lower-casing a second time changes nothing. *)
Lemma lower_from_idempotent (text : str) :
  Forall (fun c => folded c = false) text ->
  forall before_rev before_rev',
    lower_from ucd before_rev' (lower_from ucd before_rev text)
    = lower_from ucd before_rev text.
Proof.
  induction 1 as [|c text Hc _ IH]; intros before_rev before_rev'; [reflexivity|].
  cbn [lower_from].
  rewrite lower_from_fixed by now apply lower_image_fixed.
  now rewrite IH.
Qed.

Lemma lower_from_not_folded (text : str) :
  Forall (fun c => folded c = false) text ->
  forall before_rev, Forall (fun c => folded c = false) (lower_from ucd before_rev text).
Proof.
  induction 1 as [|c text Hc _ IH]; intros before_rev; [constructor|].
  cbn [lower_from]; apply Forall_app; split; [|apply IH].
  eapply Forall_impl; [|apply lower_image_fixed; exact Hc].
  now intros d [_ Hd].
Qed.

(** A basic Latin small letter of the lower case comes from a character that
    [katakana_to_hiragana] leaves alone, so folding first keeps a letter. *)
Lemma has_letter_lower_folds (text out : str) :
  Forall2 folds_to text out ->
  forall before_rev before_rev',
    existsb a_z (lower_from ucd before_rev text) = true ->
    existsb a_z (lower_from ucd before_rev' out) = true.
Proof.
  induction 1 as [|c d text out Hcd _ IH]; intros before_rev before_rev' Hletter;
    [exact Hletter|].
  cbn [lower_from] in *; rewrite existsb_app in *.
  apply orb_true_iff in Hletter as [Hhere | Hrest];
    [|apply orb_true_iff; right; eapply IH; exact Hrest].
  apply orb_true_iff; left.
  destruct (folded c) eqn:Hc.
  - exfalso.
    assert (Hsigma : (c =? 0x3A3) = false).
    { unfold folded in Hc; apply Z.eqb_neq; intros ->; discriminate. }
    rewrite Hsigma, (lower_char_folded c Hc) in Hhere.
    cbn [existsb] in Hhere; rewrite orb_false_r in Hhere.
    unfold folded in Hc; unfold a_z in Hhere.
    apply andb_true_iff in Hhere as [_ Hhi]; apply Z.leb_le in Hhi.
    repeat (apply orb_true_iff in Hc as [Hc | Hc]);
      [apply andb_true_iff in Hc as [Hlo _]; apply Z.leb_le in Hlo
      | apply Z.eqb_eq in Hc | apply Z.eqb_eq in Hc]; lia.
  - rewrite (folds_to_unfolded c d Hcd Hc).
    destruct (c =? 0x3A3); [|exact Hhere].
    destruct (final_sigma ucd before_rev text); discriminate.
Qed.

End LowerCase.

(** ** [to_hiragana_lower] *)

Lemma to_hiragana_lower_folds (ucd : UCD) (text : str) :
  exists kana,
    katakana_to_hiragana (normalize_nfkc ucd text) = Ok kana
    /\ Forall2 folds_to (normalize_nfkc ucd text) kana
    /\ to_hiragana_lower ucd text = Ok (lower ucd kana).
Proof.
  destruct (katakana_to_hiragana_folds (normalize_nfkc ucd text)) as (kana & Hkana & Hfold).
  exists kana; repeat split; try assumption.
  unfold to_hiragana_lower; now rewrite Hkana.
Qed.

(** ** [check_greeting] *)

Lemma greeting_correct (ucd : UCD) (answer : str) (allow_romaji : bool) (hira : str) :
  to_hiragana_lower ucd answer = Ok hira ->
  strip_all_spaces hira = utf8 "こんにちは" ->
  check_greeting ucd answer allow_romaji = Ok (true, utf8 "좋아요! こんにちは").
Proof.
  intros Hhira Hnospace.
  unfold check_greeting; rewrite Hhira; cbn [bind]; cbv zeta.
  now rewrite Hnospace, eqb_str_refl.
Qed.

(** C2. For every answer and either value of [allow_romaji], when the
    comparable form of the answer ([to_hiragana_lower]) with all white space
    removed is the kana string こんにちは, [check_greeting] passes: whether
    the removal is read as what [strip_all_spaces] returns or as the
    characters of the comparable form that are not white space.  With
    romaji off, こんにちは and the half-width katakana ｺﾝﾆﾁﾊ pass, and so do
    answers with a space, a tab or ideographic spaces in them. *)
Theorem greeting_correct_passes :
  (forall (ucd : UCD) (answer : str) (allow_romaji : bool) (hira : str),
     to_hiragana_lower ucd answer = Ok hira ->
     strip_all_spaces hira = utf8 "こんにちは" ->
     check_greeting ucd answer allow_romaji = Ok (true, utf8 "좋아요! こんにちは"))
  /\ (forall (ucd : UCD) (answer : str) (allow_romaji : bool) (hira : str),
        to_hiragana_lower ucd answer = Ok hira ->
        filter (fun c => negb (isspace c)) hira = utf8 "こんにちは" ->
        check_greeting ucd answer allow_romaji = Ok (true, utf8 "좋아요! こんにちは"))
  /\ check_greeting ucd_rows (utf8 "こんにちは") false = Ok (true, utf8 "좋아요! こんにちは")
  /\ check_greeting ucd_rows (utf8 "ｺﾝﾆﾁﾊ") false = Ok (true, utf8 "좋아요! こんにちは")
  /\ check_greeting ucd_rows (utf8 "こん にちは") false = Ok (true, utf8 "좋아요! こんにちは")
  /\ check_greeting ucd_rows (utf8 "こん" ++ [0x09] ++ utf8 "にちは") false
     = Ok (true, utf8 "좋아요! こんにちは")
  /\ check_greeting ucd_rows (utf8 "　ｺﾝ ﾆﾁﾊ　 ") false = Ok (true, utf8 "좋아요! こんにちは").
Proof.
  split; [exact greeting_correct|].
  split.
  - intros ucd answer allow_romaji hira Hhira Hnospace.
    apply (greeting_correct ucd answer allow_romaji hira Hhira).
    now rewrite strip_all_spaces_filter.
  - repeat split; vm_compute; reflexivity.
Qed.

(** A half-width answer with plain and ideographic spaces in it meets the
    hypotheses of C2, for either flag: its comparable form keeps the
    spaces, and removing them leaves こんにちは. *)
Lemma greeting_correct_passes_witness :
  to_hiragana_lower ucd_rows (utf8 " ｺﾝ ﾆﾁ　ﾊ ") = Ok (utf8 " こん にち は ")
  /\ filter (fun c => negb (isspace c)) (utf8 " こん にち は ") = utf8 "こんにちは"
  /\ strip_all_spaces (utf8 " こん にち は ") = utf8 "こんにちは"
  /\ check_greeting ucd_rows (utf8 " ｺﾝ ﾆﾁ　ﾊ ") true = Ok (true, utf8 "좋아요! こんにちは")
  /\ check_greeting ucd_rows (utf8 " ｺﾝ ﾆﾁ　ﾊ ") false = Ok (true, utf8 "좋아요! こんにちは").
Proof.
  split; [vm_compute; reflexivity|].
  split; [vm_compute; reflexivity|].
  split; [vm_compute; reflexivity|].
  split.
  - apply (proj1 (proj2 greeting_correct_passes) ucd_rows (utf8 " ｺﾝ ﾆﾁ　ﾊ ") true
             (utf8 " こん にち は "));
      vm_compute; reflexivity.
  - apply (proj1 greeting_correct_passes ucd_rows (utf8 " ｺﾝ ﾆﾁ　ﾊ ") false
             (utf8 " こん にち は "));
      vm_compute; reflexivity.
Defined.

Lemma greeting_wa_mistake (ucd : UCD) (answer : str) (allow_romaji : bool) (hira : str) :
  to_hiragana_lower ucd answer = Ok hira ->
  strip_all_spaces hira = utf8 "こんにちわ" ->
  check_greeting ucd answer allow_romaji
  = Ok (false, utf8 "거의 맞았어요! 'wa'는 は로 씁니다: こんにちは").
Proof.
  intros Hhira Hnospace.
  unfold check_greeting; rewrite Hhira; cbn [bind]; cbv zeta.
  rewrite Hnospace, eqb_str_refl.
  now change (utf8 "こんにちわ" ==? utf8 "こんにちは") with false.
Qed.

(** C3. For every answer whose comparable form with all white space removed
    is こんにちわ, [check_greeting] fails with the hint that names the
    substitution ('wa' is written は), whatever [allow_romaji] is: the test
    comes before the romaji path.  こんにちわ itself is such an answer. *)
Theorem greeting_wa_mistake_hint :
  (forall (ucd : UCD) (answer : str) (allow_romaji : bool) (hira : str),
     to_hiragana_lower ucd answer = Ok hira ->
     strip_all_spaces hira = utf8 "こんにちわ" ->
     check_greeting ucd answer allow_romaji
     = Ok (false, utf8 "거의 맞았어요! 'wa'는 は로 씁니다: こんにちは"))
  /\ check_greeting ucd_rows (utf8 "こんにちわ") false
     = Ok (false, utf8 "거의 맞았어요! 'wa'는 は로 씁니다: こんにちは").
Proof.
  split; [exact greeting_wa_mistake | vm_compute; reflexivity].
Qed.

(** An answer with spaces and katakana meets the hypotheses of C3 with
    romaji allowed. *)
Lemma greeting_wa_mistake_hint_witness :
  to_hiragana_lower ucd_rows (utf8 "コンニチ わ") = Ok (utf8 "こんにち わ")
  /\ strip_all_spaces (utf8 "こんにち わ") = utf8 "こんにちわ"
  /\ check_greeting ucd_rows (utf8 "コンニチ わ") true
     = Ok (false, utf8 "거의 맞았어요! 'wa'는 は로 씁니다: こんにちは").
Proof.
  split; [vm_compute; reflexivity|].
  split; [vm_compute; reflexivity|].
  apply (proj1 greeting_wa_mistake_hint ucd_rows (utf8 "コンニチ わ") true (utf8 "こんにち わ"));
    vm_compute; reflexivity.
Defined.

Lemma greeting_romaji (ucd : UCD) :
  lowercase_closed ucd = true ->
  forall answer : str,
    re_sub non_letter (utf8 "") (lower ucd (normalize_nfkc ucd answer)) = utf8 "konnichiwa" ->
    check_greeting ucd answer true = Ok (true, utf8 "좋아요! こんにちは").
Proof.
  intros Hclosed answer Hrom.
  destruct (to_hiragana_lower_folds ucd answer) as (kana & _ & Hfold & Hhira).
  assert (Hletter : existsb a_z (strip_all_spaces (lower ucd kana)) = true).
  { rewrite has_letter_strip_all_spaces.
    apply (has_letter_lower_folds ucd Hclosed _ _ Hfold [] []).
    fold (lower ucd (normalize_nfkc ucd answer)).
    rewrite has_letter_filter, <- re_sub_non_letter, Hrom; reflexivity. }
  unfold check_greeting; rewrite Hhira; cbn [bind]; cbv zeta.
  destruct (strip_all_spaces (lower ucd kana) ==? utf8 "こんにちは"); [reflexivity|].
  destruct (utf8 "こんにちわ" ==? strip_all_spaces (lower ucd kana)) eqn:Hwa.
  - apply eqb_str_eq in Hwa; rewrite <- Hwa in Hletter; discriminate.
  - now rewrite Hrom, eqb_str_refl.
Qed.

(** C10. With romaji allowed, [check_greeting] passes every answer whose
    normalized, lower-cased text keeps exactly konnichiwa once every
    character outside a-z is deleted, whatever else the answer holds: a
    Latin letter in the answer keeps both kana tests from firing.  The
    lower-case rows are only asked to be those of a case mapping
    ([lowercase_closed]).  こんにちわ konnichiwa!! is such an answer. *)
Theorem greeting_romaji_passes :
  (forall ucd : UCD,
     lowercase_closed ucd = true ->
     forall answer : str,
       re_sub non_letter (utf8 "") (lower ucd (normalize_nfkc ucd answer))
       = utf8 "konnichiwa" ->
       check_greeting ucd answer true = Ok (true, utf8 "좋아요! こんにちは"))
  /\ check_greeting ucd_rows (utf8 "こんにちわ konnichiwa!!") true
     = Ok (true, utf8 "좋아요! こんにちは").
Proof.
  split; [exact greeting_romaji | vm_compute; reflexivity].
Qed.

(** The rows of this file and a mixed answer meet the hypotheses of C10. *)
Lemma greeting_romaji_passes_witness :
  lowercase_closed ucd_rows = true
  /\ re_sub non_letter (utf8 "")
       (lower ucd_rows (normalize_nfkc ucd_rows (utf8 "こんにちわ、ＫＯＮ nichi-wa 123")))
     = utf8 "konnichiwa"
  /\ check_greeting ucd_rows (utf8 "こんにちわ、ＫＯＮ nichi-wa 123") true
     = Ok (true, utf8 "좋아요! こんにちは").
Proof.
  split; [vm_compute; reflexivity|].
  split; [vm_compute; reflexivity|].
  apply (proj1 greeting_romaji_passes ucd_rows); vm_compute; reflexivity.
Defined.

(** ** The matcher: what a group holds *)

Lemma strip_prefix_app (l s s' : str) : strip_prefix l s = Some s' -> s = l ++ s'.
Proof.
  revert s; induction l as [|x l IH]; intros [|y s]; cbn [strip_prefix app];
    try discriminate; try (now intros [= ->]).
  destruct (x =? y) eqn:E; [|discriminate].
  apply Z.eqb_eq in E; subst y; intros H; f_equal; now apply IH.
Qed.

Section Suffixes.

Variable A : Type.

(** The rest of the pattern runs on what follows some prefix of the text. *)
Let continues (s : str) (k : str -> nat -> option A) (a : A) : Prop :=
  exists pre s' pos', s = pre ++ s' /\ k s' pos' = Some a.

Lemma continues_here (lo : nat) (s : str) (pos : nat) (k : str -> nat -> option A) (a : A) :
  (if (lo =? 0)%nat then k s pos else None) = Some a -> continues s k a.
Proof.
  destruct (lo =? 0)%nat; [|discriminate].
  intros H; now exists [], s, pos.
Qed.

Lemma continues_later (c : Z) (s : str) (k : str -> nat -> option A) (a : A) :
  continues s k a -> continues (c :: s) k a.
Proof.
  intros (pre & s' & pos' & -> & H); now exists (c :: pre), s', pos'.
Qed.

Lemma repeat_greedy_continues (p : Z -> bool) (s : str) :
  forall lo hi pos k a,
    repeat_greedy A p lo hi s pos k = Some a -> continues s k a.
Proof.
  induction s as [|c rest IH]; intros lo hi pos k a; cbn [repeat_greedy].
  - destruct hi as [[|n]|]; apply continues_here.
  - destruct hi as [[|n]|]; try apply continues_here;
      (destruct (p c); [|apply continues_here]);
      match goal with
      | |- context [repeat_greedy A p ?lo' ?hi' rest ?pos' k] =>
          destruct (repeat_greedy A p lo' hi' rest pos' k) eqn:Hrec
      end;
      try apply continues_here;
      intros [= ->]; apply continues_later; eapply IH; exact Hrec.
Qed.

Lemma repeat_lazy_continues (p : Z -> bool) (s : str) :
  forall lo hi pos k a,
    repeat_lazy A p lo hi s pos k = Some a -> continues s k a.
Proof.
  induction s as [|c rest IH]; intros lo hi pos k a; cbn [repeat_lazy];
    destruct (if (lo =? 0)%nat then k _ pos else None) eqn:Hhere;
    try (intros [= ->]; eapply continues_here; exact Hhere).
  - destruct hi as [[|n]|]; discriminate.
  - destruct hi as [[|n]|]; try discriminate;
      (destruct (p c); [|discriminate]);
      intros Hrec; apply continues_later; eapply IH; exact Hrec.
Qed.

(** Whatever [exec] matches, the rest of the pattern runs on a suffix of the
    subject, and every group it adds is a part of the subject. *)
Lemma exec_groups (subject : str) (r : regex) :
  forall s pos caps (k : str -> nat -> captures -> option A) a,
    (exists pre, subject = pre ++ s) ->
    exec r s pos caps k = Some a ->
    exists s' pos' caps',
      k s' pos' caps' = Some a
      /\ (exists pre, subject = pre ++ s')
      /\ forall n g, group caps' n = Some g -> group caps n = Some g \/ part_of g subject.
Proof.
  induction r as [p | l | r1 IH1 r2 IH2 | r1 IH1 r2 IH2 | p lo hi lazy | n r1 IH1 | | ];
    intros s pos caps k a [pre Hpre]; cbn [exec].
  - destruct s as [|c s']; [discriminate|].
    destruct (p c); [|discriminate]; intros H.
    exists s', (S pos), caps; repeat split; auto.
    exists (pre ++ [c]); now rewrite <- app_assoc.
  - destruct (strip_prefix l s) as [s'|] eqn:Hl; [|discriminate]; intros H.
    apply strip_prefix_app in Hl; subst s.
    exists s', (pos + List.length l)%nat, caps; repeat split; auto.
    exists (pre ++ l); now rewrite <- app_assoc.
  - intros H.
    apply IH1 in H as (s1 & pos1 & caps1 & H & Hs1 & Hcaps1); [|now exists pre].
    apply IH2 in H as (s2 & pos2 & caps2 & H & Hs2 & Hcaps2); [|exact Hs1].
    exists s2, pos2, caps2; repeat split; auto.
    intros m g Hg; apply Hcaps2 in Hg as [Hg | Hg]; auto.
  - destruct (exec r1 s pos caps k) eqn:H1.
    + intros [= ->]; eapply IH1; eauto.
    + intros H2; eapply IH2; eauto.
  - intros H.
    assert (Hk : continues s (fun s' pos' => k s' pos' caps) a).
    { destruct lazy; [eapply repeat_lazy_continues | eapply repeat_greedy_continues];
        exact H. }
    destruct Hk as (pre' & s' & pos' & -> & Hk).
    exists s', pos', caps; repeat split; auto.
    exists (pre ++ pre'); now rewrite <- app_assoc.
  - intros H.
    apply IH1 in H as (s1 & pos1 & caps1 & H & Hs1 & Hcaps1); [|now exists pre].
    exists s1, pos1, ((n, firstn (pos1 - pos) s) :: caps1); repeat split; auto.
    intros m g; cbn [group].
    destruct (m =? n)%nat; [|apply Hcaps1].
    intros [= <-]; right.
    exists pre, (skipn (pos1 - pos) s).
    now rewrite firstn_skipn.
  - destruct (pos =? 0)%nat; [|discriminate]; intros H.
    exists s, pos, caps; repeat split; auto; now exists pre.
  - intros H.
    assert (Hk : k s pos caps = Some a).
    { destruct s as [|c [|d s']]; try discriminate; auto.
      destruct (c =? 10); [exact H | discriminate]. }
    exists s, pos, caps; repeat split; auto; now exists pre.
Qed.

End Suffixes.

(** A group of a match is a part of the subject. *)
Lemma re_match_group (r : regex) (subject : str) (m : captures) (n : nat) (g : str) :
  re_match r subject = Some m -> group m n = Some g -> part_of g subject.
Proof.
  unfold re_match; intros Hm Hg.
  apply (exec_groups captures subject) in Hm as (s' & pos' & caps' & Hk & _ & Hcaps);
    [|now exists []].
  injection Hk as ->.
  apply Hcaps in Hg as [Hg | Hg]; [discriminate | exact Hg].
Qed.

(** ** The matcher: the name group is never empty *)

Lemma exec_cat {A : Type} (r1 r2 : regex) (s : str) (pos : nat) (caps : captures)
    (k : str -> nat -> captures -> option A) (a : A) :
  exec (r1 @@ r2) s pos caps k = Some a ->
  exists s1 pos1 caps1, exec r2 s1 pos1 caps1 k = Some a.
Proof.
  cbn [exec]; intros H.
  apply (exec_groups A s) in H as (s1 & pos1 & caps1 & H & _); [|now exists []].
  now exists s1, pos1, caps1.
Qed.

Lemma repeat_lazy_advances {A : Type} (p : Z -> bool) (s : str) :
  forall lo hi pos (k : str -> nat -> option A) a,
    repeat_lazy A p lo hi s pos k = Some a ->
    exists s' pos',
      k s' pos' = Some a /\ (pos + lo <= pos')%nat /\ (pos' - pos <= List.length s)%nat.
Proof.
  induction s as [|c rest IH]; intros lo hi pos k a; cbn [repeat_lazy];
    destruct (lo =? 0)%nat eqn:Hlo.
  - destruct (k [] pos) eqn:Hk; [|destruct hi as [[|n]|]; discriminate].
    intros [= ->]; apply Nat.eqb_eq in Hlo; exists [], pos; repeat split; auto; lia.
  - destruct hi as [[|n]|]; discriminate.
  - apply Nat.eqb_eq in Hlo; subst lo.
    destruct (k (c :: rest) pos) eqn:Hk.
    + intros [= ->]; exists (c :: rest), pos; repeat split; auto; lia.
    + destruct hi as [[|n]|]; try discriminate;
        (destruct (p c); [|discriminate]); intros H;
        apply IH in H as (s' & pos' & H & Hpos & Hlen);
        exists s', pos'; cbn [List.length]; repeat split; auto; lia.
  - apply Nat.eqb_neq in Hlo.
    destruct hi as [[|n]|]; try discriminate;
      (destruct (p c); [|discriminate]); intros H;
      apply IH in H as (s' & pos' & H & Hpos & Hlen);
      exists s', pos'; cbn [List.length]; repeat split; auto; lia.
Qed.

Lemma exec_groupless {A : Type} (r : regex) :
  groupless r = true ->
  forall s pos caps (k : str -> nat -> captures -> option A) a,
    exec r s pos caps k = Some a -> exists s' pos', k s' pos' caps = Some a.
Proof.
  induction r as [p | l | r1 IH1 r2 IH2 | r1 IH1 r2 IH2 | p lo hi lazy | n r1 IH1 | | ];
    cbn [groupless]; intros Hr s pos caps k a; cbn [exec]; try discriminate.
  - destruct s as [|c s']; [discriminate|].
    destruct (p c); [|discriminate]; eauto.
  - destruct (strip_prefix l s); [|discriminate]; eauto.
  - apply andb_true_iff in Hr as [Hr1 Hr2]; intros H.
    apply (IH1 Hr1) in H as (s1 & pos1 & H).
    now apply (IH2 Hr2) in H.
  - apply andb_true_iff in Hr as [Hr1 Hr2].
    destruct (exec r1 s pos caps k) eqn:H1.
    + intros [= ->]; eapply IH1; eauto.
    + intros H2; eapply IH2; eauto.
  - intros H.
    destruct lazy;
      [apply repeat_lazy_continues in H | apply repeat_greedy_continues in H];
      destruct H as (_ & s1 & pos1 & _ & H); eauto.
  - destruct (pos =? 0)%nat; [|discriminate]; eauto.
  - destruct s as [|c [|d s']]; try discriminate; eauto.
    destruct (c =? 10); [eauto | discriminate].
Qed.

(** A lazy [(.+?)] in group 1, followed by a pattern with no group, leaves
    a group 1 that is not empty. *)
Lemma exec_name_group {A : Type} (p : Z -> bool) (rest : regex) (s : str) (pos : nat)
    (caps : captures) (k : str -> nat -> captures -> option A) (a : A) :
  groupless rest = true ->
  exec (Group 1 (Repeat p 1 None true) @@ rest) s pos caps k = Some a ->
  exists s' pos' name, k s' pos' ((1%nat, name) :: caps) = Some a /\ name <> [].
Proof.
  intros Hrest; cbn [exec]; intros H.
  apply repeat_lazy_advances in H as (s1 & pos1 & H & Hpos & Hlen).
  apply (exec_groupless rest Hrest) in H as (s' & pos' & H).
  exists s', pos', (firstn (pos1 - pos) s); split; [exact H|].
  intros Hnil; apply (f_equal (@List.length Z)) in Hnil.
  rewrite length_firstn in Hnil; cbn [List.length] in Hnil; lia.
Qed.

(** Whenever the Japanese pattern matches, its group is set and is not
    empty: the test [if name:] of [check_self_intro] always holds. *)
Lemma jp_pat_name_not_empty (subject : str) (m : captures) :
  re_match jp_pat subject = Some m -> truthy (group m 1) = true.
Proof.
  unfold re_match, jp_pat; intros H.
  do 5 (apply exec_cat in H as (? & ? & ? & H)).
  apply exec_name_group in H as (s' & pos' & name & H & Hname); [|reflexivity].
  injection H as <-; cbn.
  destruct name; [contradiction | reflexivity].
Qed.

(** ** [check_self_intro] *)

Lemma self_intro_japanese_path
    (ucd : UCD) (answer : str) (allow_romaji : bool) (kana : str) (m : captures)
    (name : str) :
  katakana_to_hiragana (normalize_nfkc ucd answer) = Ok kana ->
  re_match jp_pat (collapse_spaces kana) = Some m ->
  group m 1 = Some name ->
  name <> [] ->
  check_self_intro ucd answer allow_romaji
  = Ok (true, utf8 "좋아요! 자연스러워요.", Some name)
  /\ part_of name (collapse_spaces kana).
Proof.
  intros Hkana Hm Hname Hnonempty; split.
  - unfold check_self_intro; rewrite Hkana; cbn [bind]; cbv zeta.
    rewrite Hm, Hname.
    destruct name; [contradiction | reflexivity].
  - exact (re_match_group _ _ _ _ _ Hm Hname).
Qed.

(** C4. [check_self_intro] passes わたしは ボブ です。 with romaji off and
    returns the name ぼぶ, which is what [katakana_to_hiragana] makes of
    ボブ.  In general, when the Japanese pattern matches the normalized,
    folded, space-collapsed answer and its group is not empty, the checker
    passes and returns that group, a part of that text. *)
Theorem self_intro_extracts_folded_name :
  check_self_intro ucd_rows (utf8 "わたしは ボブ です。") false
  = Ok (true, utf8 "좋아요! 자연스러워요.", Some (utf8 "ぼぶ"))
  /\ katakana_to_hiragana (utf8 "ボブ") = Ok (utf8 "ぼぶ")
  /\ forall (ucd : UCD) (answer : str) (allow_romaji : bool) (kana : str)
            (m : captures) (name : str),
       katakana_to_hiragana (normalize_nfkc ucd answer) = Ok kana ->
       re_match jp_pat (collapse_spaces kana) = Some m ->
       group m 1 = Some name ->
       name <> [] ->
       check_self_intro ucd answer allow_romaji
       = Ok (true, utf8 "좋아요! 자연스러워요.", Some name)
       /\ part_of name (collapse_spaces kana).
Proof.
  split; [vm_compute; reflexivity|].
  split; [vm_compute; reflexivity|].
  exact self_intro_japanese_path.
Qed.

(** A full-width answer with the kanji pronoun meets the hypotheses of C4,
    with romaji allowed. *)
Lemma self_intro_extracts_folded_name_witness :
  katakana_to_hiragana (normalize_nfkc ucd_rows (utf8 "私は　ﾎﾞﾌﾞ　です．"))
  = Ok (utf8 "私は ぼぶ です.")
  /\ re_match jp_pat (collapse_spaces (utf8 "私は ぼぶ です.")) = Some [(1%nat, utf8 "ぼぶ")]
  /\ group [(1%nat, utf8 "ぼぶ")] 1 = Some (utf8 "ぼぶ")
  /\ utf8 "ぼぶ" <> []
  /\ check_self_intro ucd_rows (utf8 "私は　ﾎﾞﾌﾞ　です．") true
     = Ok (true, utf8 "좋아요! 자연스러워요.", Some (utf8 "ぼぶ"))
  /\ part_of (utf8 "ぼぶ") (collapse_spaces (utf8 "私は ぼぶ です.")).
Proof.
  split; [vm_compute; reflexivity|].
  split; [vm_compute; reflexivity|].
  split; [vm_compute; reflexivity|].
  split; [vm_compute; discriminate|].
  apply (proj2 (proj2 self_intro_extracts_folded_name)
           ucd_rows (utf8 "私は　ﾎﾞﾌﾞ　です．") true (utf8 "私は ぼぶ です.")
           [(1%nat, utf8 "ぼぶ")] (utf8 "ぼぶ"));
    vm_compute; (reflexivity || discriminate).
Defined.

(** C5.  With romaji off, [check_self_intro] fails わたし ボブ です, which
    lacks the topic marker, and returns no name.  On わたしは です。, whose
    name slot is empty, the pattern gives the white space after は to the
    group, and the checker passes with the name made of one space: the test
    [if name:] holds there, as it does whenever the pattern matches. *)
Theorem self_intro_missing_marker_empty_name :
  check_self_intro ucd_rows (utf8 "わたし ボブ です") false
  = Ok (false, utf8 "패턴: わたしは [이름] です。 (romaji: watashi wa [name] desu)", None)
  /\ check_self_intro ucd_rows (utf8 "わたしは です。") false
     = Ok (true, utf8 "좋아요! 자연스러워요.", Some (utf8 " "))
  /\ (forall (subject : str) (m : captures),
        re_match jp_pat subject = Some m -> truthy (group m 1) = true).
Proof.
  split; [vm_compute; reflexivity|].
  split; [vm_compute; reflexivity | exact jp_pat_name_not_empty].
Qed.

(** ** [check_vowels] *)

(** The index [tokens[0]] is read only when it exists. *)
Lemma resplit_ok (tokens : list str) :
  (if (List.length tokens =? 1)%nat
   then t0 <- index tokens 0 ;; Ok (chars t0)
   else Ok tokens)
  = Ok (resplit tokens).
Proof. destruct tokens as [|t [|t' rest]]; reflexivity. Qed.

Lemma wrong_loop_mismatches (pairs : list (str * str)) :
  forall idx wrong,
    wrong_loop idx pairs wrong = wrong ++ map hint_of (mismatches idx pairs).
Proof.
  induction pairs as [|[got exp] rest IH]; intros idx wrong; cbn [wrong_loop mismatches].
  - now rewrite app_nil_r.
  - destruct (negb (got ==? exp)); rewrite IH; [|reflexivity].
    now rewrite <- app_assoc.
Qed.

Lemma nth_error_combine_iff {X Y : Type} (a : list X) (b : list Y) (j : nat) (x : X) (y : Y) :
  nth_error (combine a b) j = Some (x, y)
  <-> nth_error a j = Some x /\ nth_error b j = Some y.
Proof.
  revert b j; induction a as [|x' a IH]; intros [|y' b] [|j]; cbn;
    try (split; [discriminate | intros [? ?]; discriminate]).
  - split; [intros [= -> ->]; now split | intros [[= ->] [= ->]]; reflexivity].
  - apply IH.
Qed.

Lemma In_mismatches (pairs : list (str * str)) :
  forall idx p exp,
    In (p, exp) (mismatches idx pairs)
    <-> exists j got, p = (idx + j)%nat /\ nth_error pairs j = Some (got, exp) /\ got <> exp.
Proof.
  induction pairs as [|[g e] rest IH]; intros idx p exp; cbn [mismatches].
  - split; [intros [] | intros (j & got & _ & H & _); destruct j; discriminate].
  - split.
    + intros Hin.
      assert (Hcases : (negb (g ==? e) = true /\ (idx, e) = (p, exp))
                       \/ In (p, exp) (mismatches (S idx) rest)).
      { destruct (negb (g ==? e)); [destruct Hin as [Hin | Hin]; auto | auto]. }
      destruct Hcases as [[Hne [= <- <-]] | Hrest].
      * exists 0%nat, g; repeat split; [lia|].
        apply negb_true_iff in Hne; now apply eqb_str_neq.
      * apply IH in Hrest as (j & got & -> & Hj & Hne).
        exists (S j), got; repeat split; auto; lia.
    + intros (j & got & -> & Hj & Hne).
      assert (Hrest : j <> 0%nat -> In ((idx + j)%nat, exp) (mismatches (S idx) rest)).
      { destruct j as [|j]; [congruence|]; intros _.
        apply IH; exists j, got; repeat split; auto; lia. }
      destruct j as [|j].
      * injection Hj as -> ->.
        apply eqb_str_neq in Hne; rewrite Hne; cbn [negb].
        left; f_equal; lia.
      * destruct (negb (g ==? e)); [right|]; apply Hrest; discriminate.
Qed.

Lemma mismatches_none (a b : list str) :
  forall idx,
    List.length a = List.length b -> mismatches idx (combine a b) = [] -> a = b.
Proof.
  revert b; induction a as [|x a IH]; intros [|y b] idx Hlen; cbn in Hlen;
    try discriminate; [reflexivity|].
  cbn [combine mismatches].
  destruct (x ==? y) eqn:E; cbn [negb]; [|discriminate].
  apply eqb_str_eq in E; subst y; intros H; f_equal.
  apply (IH b (S idx)); [lia | exact H].
Qed.

Lemma hint_prefix_nonempty (w : str) : utf8 "힌트: " ++ w <> [].
Proof.
  destruct (utf8 "힌트: ") eqn:E; [vm_compute in E|]; discriminate.
Qed.

(** [check_vowels] with romaji off, from the tokens on. *)
Lemma check_vowels_no_romaji (ucd : UCD) (answer hira : str) :
  katakana_to_hiragana (normalize_nfkc ucd answer) = Ok hira ->
  check_vowels ucd answer false
  = if eqb_strs (tokens_of hira) target then Ok (true, utf8 "완벽해요! あ い う え お")
    else if (List.length (tokens_of hira) =? 5)%nat
         then match mismatches 1 (combine (tokens_of hira) target) with
              | (_ :: _) as wrong =>
                  Ok (false, utf8 "힌트: " ++ join (utf8 ", ") (map hint_of wrong))
              | [] => Ok (false, utf8 "정답: あ い う え お (romaji: a i u e o)")
              end
         else Ok (false, utf8 "정답: あ い う え お (romaji: a i u e o)").
Proof.
  intros Hkana.
  unfold check_vowels; rewrite Hkana; cbn [bind]; cbv zeta.
  rewrite resplit_ok; cbn [bind]; fold (tokens_of hira).
  rewrite wrong_loop_mismatches; cbn [app].
  destruct (mismatches 1 (combine (tokens_of hira) target)); reflexivity.
Qed.

Lemma vowels_tokens_pass (ucd : UCD) (answer : str) (allow_romaji : bool) (hira : str) :
  katakana_to_hiragana (normalize_nfkc ucd answer) = Ok hira ->
  tokens_of hira = target ->
  check_vowels ucd answer allow_romaji = Ok (true, utf8 "완벽해요! あ い う え お").
Proof.
  intros Hkana Htokens.
  unfold check_vowels; rewrite Hkana; cbn [bind]; cbv zeta.
  rewrite resplit_ok; cbn [bind]; fold (tokens_of hira).
  rewrite Htokens.
  now replace (eqb_strs target target) with true by (symmetry; now apply eqb_strs_eq).
Qed.

Lemma single_token_resplit (hira t : str) :
  filter (fun t => negb (t ==? [])) (re_split spaces1 (strip hira)) = [t] ->
  tokens_of hira = chars t.
Proof. unfold tokens_of; now intros ->. Qed.

(** C6. [check_vowels] passes both あ い う え お and あいうえお with romaji
    off.  When white space leaves a single non-empty token, the tokens
    compared are its characters one by one, and an answer whose tokens are
    the five vowels passes: the characters of あいうえお are the five
    vowels. *)
Theorem vowels_spaced_and_contiguous_pass :
  check_vowels ucd_rows (utf8 "あ い う え お") false = Ok (true, utf8 "완벽해요! あ い う え お")
  /\ check_vowels ucd_rows (utf8 "あいうえお") false = Ok (true, utf8 "완벽해요! あ い う え お")
  /\ chars (utf8 "あいうえお") = target
  /\ (forall hira t : str,
        filter (fun t => negb (t ==? [])) (re_split spaces1 (strip hira)) = [t] ->
        tokens_of hira = chars t)
  /\ (forall (ucd : UCD) (answer : str) (allow_romaji : bool) (hira : str),
        katakana_to_hiragana (normalize_nfkc ucd answer) = Ok hira ->
        tokens_of hira = target ->
        check_vowels ucd answer allow_romaji = Ok (true, utf8 "완벽해요! あ い う え お")).
Proof.
  split; [vm_compute; reflexivity|].
  split; [vm_compute; reflexivity|].
  split; [vm_compute; reflexivity|].
  split; [exact single_token_resplit | exact vowels_tokens_pass].
Qed.

(** A contiguous katakana answer between spaces meets the hypotheses of C6. *)
Lemma vowels_spaced_and_contiguous_pass_witness :
  katakana_to_hiragana (normalize_nfkc ucd_rows (utf8 " アイウエオ ")) = Ok (utf8 " あいうえお ")
  /\ filter (fun t => negb (t ==? [])) (re_split spaces1 (strip (utf8 " あいうえお ")))
     = [utf8 "あいうえお"]
  /\ tokens_of (utf8 " あいうえお ") = target
  /\ check_vowels ucd_rows (utf8 " アイウエオ ") true = Ok (true, utf8 "완벽해요! あ い う え お").
Proof.
  split; [vm_compute; reflexivity|].
  split; [vm_compute; reflexivity|].
  split;
    [rewrite (proj1 (proj2 (proj2 (proj2 vowels_spaced_and_contiguous_pass)))
                _ (utf8 "あいうえお"));
     vm_compute; reflexivity|].
  apply (proj2 (proj2 (proj2 (proj2 vowels_spaced_and_contiguous_pass)))
           ucd_rows (utf8 " アイウエオ ") true (utf8 " あいうえお "));
    vm_compute; reflexivity.
Defined.

Lemma vowels_hint (ucd : UCD) (answer hira : str) :
  katakana_to_hiragana (normalize_nfkc ucd answer) = Ok hira ->
  List.length (tokens_of hira) = 5%nat ->
  tokens_of hira <> target ->
  exists wrong : list (nat * str),
    check_vowels ucd answer false
    = Ok (false, utf8 "힌트: " ++ join (utf8 ", ") (map hint_of wrong))
    /\ wrong <> []
    /\ (forall i got exp,
          nth_error (tokens_of hira) i = Some got ->
          nth_error target i = Some exp ->
          (In (S i, exp) wrong <-> got <> exp))
    /\ (forall p exp,
          In (p, exp) wrong -> exists i, p = S i /\ nth_error target i = Some exp).
Proof.
  intros Hkana Hlen Hne.
  exists (mismatches 1 (combine (tokens_of hira) target)).
  assert (Hwrong : mismatches 1 (combine (tokens_of hira) target) <> []).
  { intros Hnil; apply Hne.
    apply (mismatches_none _ _ 1%nat); [rewrite Hlen; reflexivity | exact Hnil]. }
  split; [|split; [exact Hwrong|split]].
  - rewrite (check_vowels_no_romaji ucd answer hira Hkana).
    rewrite (eqb_strs_neq _ _ Hne), Hlen; cbn [Nat.eqb].
    destruct (mismatches 1 (combine (tokens_of hira) target)); [contradiction | reflexivity].
  - intros i got exp Hgot Hexp; split.
    + intros Hin.
      apply In_mismatches in Hin as (j & got' & Hj & Hpair & Hne').
      apply nth_error_combine_iff in Hpair as [Hgot' _].
      assert (j = i) by lia; subst j; congruence.
    + intros Hne'.
      apply In_mismatches; exists i, got; repeat split; auto.
      now apply nth_error_combine_iff.
  - intros p exp Hin.
    apply In_mismatches in Hin as (j & got' & -> & Hpair & _).
    apply nth_error_combine_iff in Hpair as [_ Hexp].
    now exists j.
Qed.

(** C7. With romaji off, when the tokens of the answer are five and are not
    the five vowels in order, [check_vowels] fails with a hint that lists
    the mismatches: one entry, position counted from 1 and expected vowel,
    for every position where the token is not the expected one, and no
    other entry.  あ う い え お fails with the hint on positions 2 (い)
    and 3 (う). *)
Theorem vowels_hint_lists_every_mismatch :
  (forall (ucd : UCD) (answer hira : str),
     katakana_to_hiragana (normalize_nfkc ucd answer) = Ok hira ->
     List.length (tokens_of hira) = 5%nat ->
     tokens_of hira <> target ->
     exists wrong : list (nat * str),
       check_vowels ucd answer false
       = Ok (false, utf8 "힌트: " ++ join (utf8 ", ") (map hint_of wrong))
       /\ wrong <> []
       /\ (forall i got exp,
             nth_error (tokens_of hira) i = Some got ->
             nth_error target i = Some exp ->
             (In (S i, exp) wrong <-> got <> exp))
       /\ (forall p exp,
             In (p, exp) wrong -> exists i, p = S i /\ nth_error target i = Some exp))
  /\ check_vowels ucd_rows (utf8 "あ う い え お") false
     = Ok (false, utf8 "힌트: 2번째는 い, 3번째는 う")
  /\ hint_of (2%nat, utf8 "い") = utf8 "2번째는 い"
  /\ hint_of (3%nat, utf8 "う") = utf8 "3번째는 う".
Proof.
  split; [exact vowels_hint|].
  repeat split; vm_compute; reflexivity.
Qed.

(** The answer in the wrong order meets the hypotheses of C7. *)
Lemma vowels_hint_lists_every_mismatch_witness :
  katakana_to_hiragana (normalize_nfkc ucd_rows (utf8 "あ う い え お"))
  = Ok (utf8 "あ う い え お")
  /\ List.length (tokens_of (utf8 "あ う い え お")) = 5%nat
  /\ tokens_of (utf8 "あ う い え お") <> target
  /\ exists wrong : list (nat * str),
       check_vowels ucd_rows (utf8 "あ う い え お") false
       = Ok (false, utf8 "힌트: " ++ join (utf8 ", ") (map hint_of wrong))
       /\ wrong <> []
       /\ (forall i got exp,
             nth_error (tokens_of (utf8 "あ う い え お")) i = Some got ->
             nth_error target i = Some exp ->
             (In (S i, exp) wrong <-> got <> exp))
       /\ (forall p exp,
             In (p, exp) wrong -> exists i, p = S i /\ nth_error target i = Some exp).
Proof.
  split; [vm_compute; reflexivity|].
  split; [vm_compute; reflexivity|].
  split; [vm_compute; discriminate|].
  apply (proj1 vowels_hint_lists_every_mismatch ucd_rows (utf8 "あ う い え お")
           (utf8 "あ う い え お"));
    vm_compute; (reflexivity || discriminate).
Defined.

(** ** Idempotence of [to_hiragana_lower] *)

(** C8, as the spec states it, fails: the comparable form of J with a
    combining caron is j with a combining caron, which normalization
    composes into U+01F0, so a second pass changes the text. *)
Lemma comparable_form_not_idempotent :
  to_hiragana_lower ucd_rows [0x4A; 0x30C] = Ok [0x6A; 0x30C]
  /\ to_hiragana_lower ucd_rows [0x6A; 0x30C] = Ok [0x1F0]
  /\ (y <- to_hiragana_lower ucd_rows [0x4A; 0x30C] ;; to_hiragana_lower ucd_rows y)
     <> to_hiragana_lower ucd_rows [0x4A; 0x30C].
Proof.
  repeat split; vm_compute; (reflexivity || discriminate).
Qed.

(** C8, amended. When normalization leaves the comparable form of [x]
    unchanged, taking the comparable form again leaves it unchanged: the
    folding and the lower-casing are idempotent, for lower-case rows that
    are those of a case mapping ([lowercase_closed]). *)
Theorem comparable_form_idempotent_when_normalized
    (ucd : UCD) (x y : str) :
  lowercase_closed ucd = true ->
  to_hiragana_lower ucd x = Ok y ->
  normalize_nfkc ucd y = y ->
  to_hiragana_lower ucd y = Ok y.
Proof.
  intros Hclosed Hy Hnormal.
  destruct (to_hiragana_lower_folds ucd x) as (kana & _ & Hfold & Hx).
  rewrite Hx in Hy; injection Hy as <-.
  apply folds_to_all_not_folded in Hfold.
  unfold to_hiragana_lower; rewrite Hnormal.
  rewrite katakana_to_hiragana_unfolded
    by (apply lower_from_not_folded; assumption).
  cbn [bind]; f_equal.
  apply lower_from_idempotent; assumption.
Qed.

(** A mixed-script answer meets the hypotheses of the amended C8. *)
Lemma comparable_form_idempotent_when_normalized_witness :
  lowercase_closed ucd_rows = true
  /\ to_hiragana_lower ucd_rows (utf8 "ｺﾝﾆﾁﾊ　Ｂｏｂ AΣ ヶ") = Ok (utf8 "こんにちは bob aς ゖ")
  /\ normalize_nfkc ucd_rows (utf8 "こんにちは bob aς ゖ") = utf8 "こんにちは bob aς ゖ"
  /\ to_hiragana_lower ucd_rows (utf8 "こんにちは bob aς ゖ") = Ok (utf8 "こんにちは bob aς ゖ").
Proof.
  split; [vm_compute; reflexivity|].
  split; [vm_compute; reflexivity|].
  split; [vm_compute; reflexivity|].
  apply (comparable_form_idempotent_when_normalized ucd_rows (utf8 "ｺﾝﾆﾁﾊ　Ｂｏｂ AΣ ヶ"));
    vm_compute; reflexivity.
Defined.

(** ** No checker raises *)

Ltac outcome :=
  repeat match goal with
         | |- context [if ?b then _ else _] => destruct b
         | |- context [match re_match ?r ?s with _ => _ end] => destruct (re_match r s)
         | |- context [match mismatches ?i ?l with _ => _ end] => destruct (mismatches i l)
         end;
  repeat eexists; try (vm_compute; discriminate); apply hint_prefix_nonempty.

Lemma check_greeting_total (ucd : UCD) (answer : str) (allow_romaji : bool) :
  exists passed message,
    check_greeting ucd answer allow_romaji = Ok (passed, message) /\ message <> [].
Proof.
  destruct (to_hiragana_lower_folds ucd answer) as (kana & _ & _ & Hhira).
  unfold check_greeting; rewrite Hhira; cbn [bind]; cbv zeta.
  outcome.
Qed.

Lemma check_self_intro_total (ucd : UCD) (answer : str) (allow_romaji : bool) :
  exists passed message name,
    check_self_intro ucd answer allow_romaji = Ok (passed, message, name) /\ message <> [].
Proof.
  destruct (katakana_to_hiragana_folds (normalize_nfkc ucd answer)) as (kana & Hkana & _).
  unfold check_self_intro; rewrite Hkana; cbn [bind]; cbv zeta.
  outcome.
Qed.

Lemma check_vowels_total (ucd : UCD) (answer : str) (allow_romaji : bool) :
  exists passed message,
    check_vowels ucd answer allow_romaji = Ok (passed, message) /\ message <> [].
Proof.
  destruct (katakana_to_hiragana_folds (normalize_nfkc ucd answer)) as (kana & Hkana & _).
  unfold check_vowels; rewrite Hkana; cbn [bind]; cbv zeta.
  rewrite resplit_ok; cbn [bind]; rewrite wrong_loop_mismatches; cbn [app].
  outcome.
Qed.

(** C9. For every answer, the empty one included, and either value of
    [allow_romaji], each of the three checkers returns an outcome, a flag
    and a message that is not empty (and, for [check_self_intro], a name
    or none), and raises no exception: [chr] is called on code points in
    range only and [tokens[0]] is read only when there is one token. *)
Theorem checkers_never_raise (ucd : UCD) (answer : str) (allow_romaji : bool) :
  (exists passed message,
     check_greeting ucd answer allow_romaji = Ok (passed, message) /\ message <> [])
  /\ (exists passed message name,
        check_self_intro ucd answer allow_romaji = Ok (passed, message, name)
        /\ message <> [])
  /\ (exists passed message,
        check_vowels ucd answer allow_romaji = Ok (passed, message) /\ message <> []).
Proof.
  split; [apply check_greeting_total|].
  split; [apply check_self_intro_total | apply check_vowels_total].
Qed.

(** * Further properties *)

(** ** Which answers [check_greeting] passes *)

Lemma check_greeting_cases (ucd : UCD) (answer : str) (allow_romaji : bool) (hira : str) :
  to_hiragana_lower ucd answer = Ok hira ->
  check_greeting ucd answer allow_romaji
  = Ok (if strip_all_spaces hira ==? utf8 "こんにちは" then (true, utf8 "좋아요! こんにちは")
        else if utf8 "こんにちわ" ==? strip_all_spaces hira
             then (false, utf8 "거의 맞았어요! 'wa'는 は로 씁니다: こんにちは")
             else if allow_romaji
                     && (re_sub non_letter (utf8 "") (lower ucd (normalize_nfkc ucd answer))
                         ==? utf8 "konnichiwa")
                  then (true, utf8 "좋아요! こんにちは")
                  else (false, utf8 "힌트: 낮 인사(こんにちは). 'wa' 표기는 は를 사용해요.")).
Proof.
  intros Hhira.
  unfold check_greeting; rewrite Hhira; cbn [bind]; cbv zeta.
  destruct (strip_all_spaces hira ==? utf8 "こんにちは"); [reflexivity|].
  destruct (utf8 "こんにちわ" ==? strip_all_spaces hira); [reflexivity|].
  destruct allow_romaji; [|reflexivity].
  cbn [andb].
  now destruct (re_sub non_letter (utf8 "") (lower ucd (normalize_nfkc ucd answer))
                ==? utf8 "konnichiwa").
Qed.

(** X5. With romaji off, [check_greeting] passes exactly the answers whose
    comparable form without white space is こんにちは; konnichiwa is
    rejected. *)
Theorem greeting_without_romaji :
  (forall (ucd : UCD) (answer : str),
     exists hira,
       to_hiragana_lower ucd answer = Ok hira
       /\ ((exists msg, check_greeting ucd answer false = Ok (true, msg))
           <-> strip_all_spaces hira = utf8 "こんにちは"))
  /\ check_greeting ucd_rows (utf8 "konnichiwa") false
     = Ok (false, utf8 "힌트: 낮 인사(こんにちは). 'wa' 표기는 は를 사용해요.").
Proof.
  split; [|vm_compute; reflexivity].
  intros ucd answer.
  destruct (to_hiragana_lower_folds ucd answer) as (kana & _ & _ & Hhira).
  exists (lower ucd kana); split; [exact Hhira|].
  rewrite (check_greeting_cases ucd answer false _ Hhira).
  destruct (strip_all_spaces (lower ucd kana) ==? utf8 "こんにちは") eqn:Hok.
  - apply eqb_str_eq in Hok; split; [auto | eauto].
  - apply eqb_str_neq in Hok; split; [|contradiction].
    intros [msg Hmsg].
    destruct (utf8 "こんにちわ" ==? strip_all_spaces (lower ucd kana)); discriminate.
Qed.

(** X6. With romaji on, [check_greeting] passes exactly the answers whose
    comparable form without white space is こんにちは or whose normalized,
    lower-cased text keeps konnichiwa once every character outside a-z is
    deleted (for lower-case rows that are those of a case mapping). *)
Theorem greeting_with_romaji (ucd : UCD) (answer : str) :
  lowercase_closed ucd = true ->
  exists hira,
    to_hiragana_lower ucd answer = Ok hira
    /\ ((exists msg, check_greeting ucd answer true = Ok (true, msg))
        <-> strip_all_spaces hira = utf8 "こんにちは"
            \/ re_sub non_letter (utf8 "") (lower ucd (normalize_nfkc ucd answer))
               = utf8 "konnichiwa").
Proof.
  intros Hclosed.
  destruct (to_hiragana_lower_folds ucd answer) as (kana & _ & _ & Hhira).
  exists (lower ucd kana); split; [exact Hhira|]; split.
  - intros [msg Hmsg].
    rewrite (check_greeting_cases ucd answer true _ Hhira) in Hmsg.
    destruct (strip_all_spaces (lower ucd kana) ==? utf8 "こんにちは") eqn:Hok;
      [left; now apply eqb_str_eq|].
    destruct (utf8 "こんにちわ" ==? strip_all_spaces (lower ucd kana)); [discriminate|].
    cbn [andb] in Hmsg.
    destruct (re_sub non_letter (utf8 "") (lower ucd (normalize_nfkc ucd answer))
              ==? utf8 "konnichiwa") eqn:Hrom; [|discriminate].
    right; now apply eqb_str_eq.
  - intros [Hok | Hrom]; eexists.
    + exact (greeting_correct ucd answer true _ Hhira Hok).
    + exact (greeting_romaji ucd Hclosed answer Hrom).
Qed.

Lemma greeting_with_romaji_witness :
  lowercase_closed ucd_rows = true
  /\ exists hira,
       to_hiragana_lower ucd_rows (utf8 "Kon'nichi wa!") = Ok hira
       /\ ((exists msg, check_greeting ucd_rows (utf8 "Kon'nichi wa!") true = Ok (true, msg))
           <-> strip_all_spaces hira = utf8 "こんにちは"
               \/ re_sub non_letter (utf8 "")
                    (lower ucd_rows (normalize_nfkc ucd_rows (utf8 "Kon'nichi wa!")))
                  = utf8 "konnichiwa").
Proof.
  split; [vm_compute; reflexivity|].
  apply (greeting_with_romaji ucd_rows (utf8 "Kon'nichi wa!")); vm_compute; reflexivity.
Defined.

(** ** Which answers [check_self_intro] passes, and the name it returns *)

Lemma romaji_pat_name_not_empty (subject : str) (m : captures) :
  re_match romaji_pat subject = Some m -> truthy (group m 1) = true.
Proof.
  unfold re_match, romaji_pat; intros H.
  do 5 (apply exec_cat in H as (? & ? & ? & H)).
  apply exec_name_group in H as (s' & pos' & name & H & Hname); [|reflexivity].
  injection H as <-; cbn.
  destruct name; [contradiction | reflexivity].
Qed.

Lemma truthy_name (name : option str) :
  truthy name = true -> exists n, name = Some n /\ n <> [].
Proof.
  destruct name as [[|c n]|]; try discriminate.
  intros _; exists (c :: n); split; [reflexivity | discriminate].
Qed.

Lemma check_self_intro_cases (ucd : UCD) (answer : str) (allow_romaji : bool) (kana : str) :
  katakana_to_hiragana (normalize_nfkc ucd answer) = Ok kana ->
  check_self_intro ucd answer allow_romaji
  = match re_match jp_pat (collapse_spaces kana) with
    | Some m => Ok (true, utf8 "좋아요! 자연스러워요.", group m 1)
    | None =>
        match (if allow_romaji
               then re_match romaji_pat
                      (collapse_spaces (lower ucd (normalize_nfkc ucd answer)))
               else None) with
        | Some m2 => Ok (true, utf8 "좋아요! 자연스러워요.", group m2 1)
        | None =>
            Ok (false, utf8 "패턴: わたしは [이름] です。 (romaji: watashi wa [name] desu)", None)
        end
    end.
Proof.
  intros Hkana.
  unfold check_self_intro; rewrite Hkana; cbn [bind]; cbv zeta.
  destruct (re_match jp_pat (collapse_spaces kana)) as [m|] eqn:Hm.
  - now rewrite (jp_pat_name_not_empty _ _ Hm).
  - destruct allow_romaji; [|reflexivity].
    now destruct (re_match romaji_pat _).
Qed.

(** X7. [check_self_intro] returns a name exactly when it passes, and the name
    is never empty; a failure carries the message that shows the pattern. *)
Theorem self_intro_name_iff_passed (ucd : UCD) (answer : str) (allow_romaji : bool) :
  exists passed msg name,
    check_self_intro ucd answer allow_romaji = Ok (passed, msg, name)
    /\ (passed = true ->
        msg = utf8 "좋아요! 자연스러워요." /\ exists n, name = Some n /\ n <> [])
    /\ (passed = false ->
        msg = utf8 "패턴: わたしは [이름] です。 (romaji: watashi wa [name] desu)"
        /\ name = None).
Proof.
  destruct (katakana_to_hiragana_folds (normalize_nfkc ucd answer)) as (kana & Hkana & _).
  rewrite (check_self_intro_cases ucd answer allow_romaji kana Hkana).
  destruct (re_match jp_pat (collapse_spaces kana)) as [m|] eqn:Hm.
  - do 3 eexists; split; [reflexivity|]; split; [|discriminate].
    intros _; split; [reflexivity|].
    apply truthy_name, (jp_pat_name_not_empty _ _ Hm).
  - destruct (if allow_romaji then _ else None) as [m2|] eqn:Hm2.
    + do 3 eexists; split; [reflexivity|]; split; [|discriminate].
      intros _; split; [reflexivity|].
      destruct allow_romaji; [|discriminate].
      apply truthy_name, (romaji_pat_name_not_empty _ _ Hm2).
    + do 3 eexists; split; [reflexivity|]; split; [discriminate | auto].
Qed.

(** X8. With romaji off, [check_self_intro] passes exactly when the Japanese
    pattern matches the normalized, folded, space-collapsed answer; the
    romaji sentence is rejected. *)
Theorem self_intro_without_romaji :
  (forall (ucd : UCD) (answer : str),
     exists kana,
       katakana_to_hiragana (normalize_nfkc ucd answer) = Ok kana
       /\ ((exists msg name, check_self_intro ucd answer false = Ok (true, msg, name))
           <-> exists m, re_match jp_pat (collapse_spaces kana) = Some m))
  /\ check_self_intro ucd_rows (utf8 "watashi wa bob desu.") false
     = Ok (false, utf8 "패턴: わたしは [이름] です。 (romaji: watashi wa [name] desu)", None).
Proof.
  split; [|vm_compute; reflexivity].
  intros ucd answer.
  destruct (katakana_to_hiragana_folds (normalize_nfkc ucd answer)) as (kana & Hkana & _).
  exists kana; split; [exact Hkana|].
  rewrite (check_self_intro_cases ucd answer false kana Hkana).
  destruct (re_match jp_pat (collapse_spaces kana)) as [m|].
  - split; eauto.
  - split; [intros (msg & name & H); discriminate | intros [m H]; discriminate].
Qed.

Lemma self_intro_romaji (ucd : UCD) (answer kana : str) (m2 : captures) :
  katakana_to_hiragana (normalize_nfkc ucd answer) = Ok kana ->
  re_match jp_pat (collapse_spaces kana) = None ->
  re_match romaji_pat (collapse_spaces (lower ucd (normalize_nfkc ucd answer))) = Some m2 ->
  exists name,
    check_self_intro ucd answer true = Ok (true, utf8 "좋아요! 자연스러워요.", Some name)
    /\ name <> []
    /\ part_of name (collapse_spaces (lower ucd (normalize_nfkc ucd answer))).
Proof.
  intros Hkana Hjp Hromaji.
  destruct (truthy_name _ (romaji_pat_name_not_empty _ _ Hromaji)) as (name & Hname & Hne).
  exists name; repeat split; [|exact Hne|exact (re_match_group _ _ _ _ _ Hromaji Hname)].
  rewrite (check_self_intro_cases ucd answer true kana Hkana), Hjp, Hromaji.
  now rewrite Hname.
Qed.

(** X9. With romaji on, when the Japanese pattern does not match and the romaji
    pattern matches the normalized, lower-cased, space-collapsed answer,
    [check_self_intro] passes and returns the group of that match: a name
    that is not empty and is a part of the lower-cased text.  So
    watashi wa bob desu. gives bob, and a name typed Bob comes back as
    bob. *)
Theorem self_intro_romaji_path :
  (forall (ucd : UCD) (answer kana : str) (m2 : captures),
     katakana_to_hiragana (normalize_nfkc ucd answer) = Ok kana ->
     re_match jp_pat (collapse_spaces kana) = None ->
     re_match romaji_pat (collapse_spaces (lower ucd (normalize_nfkc ucd answer)))
     = Some m2 ->
     exists name,
       check_self_intro ucd answer true = Ok (true, utf8 "좋아요! 자연스러워요.", Some name)
       /\ name <> []
       /\ part_of name (collapse_spaces (lower ucd (normalize_nfkc ucd answer))))
  /\ check_self_intro ucd_rows (utf8 "watashi wa bob desu.") true
     = Ok (true, utf8 "좋아요! 자연스러워요.", Some (utf8 "bob"))
  /\ check_self_intro ucd_rows (utf8 "  Watashi   wa Bob  desu") true
     = Ok (true, utf8 "좋아요! 자연스러워요.", Some (utf8 "bob")).
Proof.
  split; [exact self_intro_romaji|].
  split; vm_compute; reflexivity.
Qed.

Lemma self_intro_romaji_path_witness :
  katakana_to_hiragana (normalize_nfkc ucd_rows (utf8 "Ｂｏｋｕ wa Ken desu."))
  = Ok (utf8 "Boku wa Ken desu.")
  /\ re_match jp_pat (collapse_spaces (utf8 "Boku wa Ken desu.")) = None
  /\ re_match romaji_pat
       (collapse_spaces (lower ucd_rows (normalize_nfkc ucd_rows (utf8 "Ｂｏｋｕ wa Ken desu."))))
     = Some [(1%nat, utf8 "ken")]
  /\ exists name,
       check_self_intro ucd_rows (utf8 "Ｂｏｋｕ wa Ken desu.") true
       = Ok (true, utf8 "좋아요! 자연스러워요.", Some name)
       /\ name <> []
       /\ part_of name
            (collapse_spaces
               (lower ucd_rows (normalize_nfkc ucd_rows (utf8 "Ｂｏｋｕ wa Ken desu.")))).
Proof.
  split; [vm_compute; reflexivity|].
  split; [vm_compute; reflexivity|].
  split; [vm_compute; reflexivity|].
  apply (proj1 self_intro_romaji_path ucd_rows (utf8 "Ｂｏｋｕ wa Ken desu.")
           (utf8 "Boku wa Ken desu.") [(1%nat, utf8 "ken")]);
    vm_compute; reflexivity.
Defined.

(** ** Which answers [check_vowels] passes *)

Lemma check_vowels_romaji_cases (ucd : UCD) (answer hira : str) :
  katakana_to_hiragana (normalize_nfkc ucd answer) = Ok hira ->
  check_vowels ucd answer true
  = if eqb_strs (tokens_of hira) target then Ok (true, utf8 "완벽해요! あ い う え お")
    else if re_sub non_letter (utf8 "") (lower ucd (normalize_nfkc ucd answer)) ==? utf8 "aiueo"
         then Ok (true, utf8 "완벽해요! あ い う え お")
         else check_vowels ucd answer false.
Proof.
  intros Hkana.
  rewrite (check_vowels_no_romaji ucd answer hira Hkana).
  unfold check_vowels; rewrite Hkana; cbn [bind]; cbv zeta.
  rewrite resplit_ok; cbn [bind]; fold (tokens_of hira).
  rewrite wrong_loop_mismatches; cbn [app].
  destruct (eqb_strs (tokens_of hira) target); [reflexivity|].
  destruct (re_sub non_letter (utf8 "") (lower ucd (normalize_nfkc ucd answer)) ==? utf8 "aiueo");
    [reflexivity|].
  destruct (mismatches 1 (combine (tokens_of hira) target)); reflexivity.
Qed.

(** X10. With romaji off, [check_vowels] passes exactly when the tokens of the
    answer are the five vowels in order, and an answer whose tokens are not
    five gets the message that shows the whole sequence.  aiueo is
    rejected: it is one token of five characters, so the hint lists all
    five positions; an answer of four vowels gets the whole sequence. *)
Theorem vowels_without_romaji :
  (forall (ucd : UCD) (answer : str),
     exists hira,
       katakana_to_hiragana (normalize_nfkc ucd answer) = Ok hira
       /\ ((exists msg, check_vowels ucd answer false = Ok (true, msg))
           <-> tokens_of hira = target)
       /\ (List.length (tokens_of hira) <> 5%nat ->
           check_vowels ucd answer false
           = Ok (false, utf8 "정답: あ い う え お (romaji: a i u e o)")))
  /\ check_vowels ucd_rows (utf8 "aiueo") false
     = Ok (false, utf8 "힌트: 1번째는 あ, 2번째는 い, 3번째는 う, 4번째는 え, 5번째는 お")
  /\ check_vowels ucd_rows (utf8 "あ い う え") false
     = Ok (false, utf8 "정답: あ い う え お (romaji: a i u e o)").
Proof.
  split; [|split; vm_compute; reflexivity].
  intros ucd answer.
  destruct (katakana_to_hiragana_folds (normalize_nfkc ucd answer)) as (hira & Hkana & _).
  exists hira; split; [exact Hkana|].
  rewrite (check_vowels_no_romaji ucd answer hira Hkana).
  destruct (eqb_strs (tokens_of hira) target) eqn:Htokens.
  - apply eqb_strs_eq in Htokens; split; [split; eauto|].
    intros Hlen; rewrite Htokens in Hlen; now contradiction Hlen.
  - split.
    + split.
      * intros [msg H].
        destruct (List.length (tokens_of hira) =? 5)%nat; [|discriminate].
        destruct (mismatches 1 (combine (tokens_of hira) target)); discriminate.
      * intros H; apply eqb_strs_eq in H; congruence.
    + intros Hlen; apply Nat.eqb_neq in Hlen; now rewrite Hlen.
Qed.

(** X11. With romaji on, [check_vowels] passes exactly when the tokens are the
    five vowels in order or the normalized, lower-cased answer keeps aiueo
    once every character outside a-z is deleted; aiueo and A-I-U-E-O!
    pass. *)
Theorem vowels_with_romaji :
  (forall (ucd : UCD) (answer : str),
     exists hira,
       katakana_to_hiragana (normalize_nfkc ucd answer) = Ok hira
       /\ ((exists msg, check_vowels ucd answer true = Ok (true, msg))
           <-> tokens_of hira = target
               \/ re_sub non_letter (utf8 "") (lower ucd (normalize_nfkc ucd answer))
                  = utf8 "aiueo"))
  /\ check_vowels ucd_rows (utf8 "aiueo") true = Ok (true, utf8 "완벽해요! あ い う え お")
  /\ check_vowels ucd_rows (utf8 "A-I-U-E-O!") true = Ok (true, utf8 "완벽해요! あ い う え お").
Proof.
  split; [|split; vm_compute; reflexivity].
  intros ucd answer.
  destruct (katakana_to_hiragana_folds (normalize_nfkc ucd answer)) as (hira & Hkana & _).
  exists hira; split; [exact Hkana|].
  rewrite (check_vowels_romaji_cases ucd answer hira Hkana).
  destruct (eqb_strs (tokens_of hira) target) eqn:Htokens.
  { apply eqb_strs_eq in Htokens; split; eauto. }
  destruct (re_sub non_letter (utf8 "") (lower ucd (normalize_nfkc ucd answer)) ==? utf8 "aiueo")
    eqn:Hrom.
  { apply eqb_str_eq in Hrom; split; eauto. }
  rewrite (check_vowels_no_romaji ucd answer hira Hkana), Htokens.
  split.
  - intros [msg H].
    destruct (List.length (tokens_of hira) =? 5)%nat; [|discriminate].
    destruct (mismatches 1 (combine (tokens_of hira) target)); discriminate.
  - intros [H | H]; [apply eqb_strs_eq in H | apply eqb_str_eq in H]; congruence.
Qed.

(** ** Allowing romaji takes no pass away *)

(** X12. An answer that passes a checker with romaji off passes it with romaji
    on, with the same outcome. *)
Theorem allowing_romaji_keeps_passes (ucd : UCD) (answer : str) :
  (forall msg,
     check_greeting ucd answer false = Ok (true, msg) ->
     check_greeting ucd answer true = Ok (true, msg))
  /\ (forall msg name,
        check_self_intro ucd answer false = Ok (true, msg, name) ->
        check_self_intro ucd answer true = Ok (true, msg, name))
  /\ (forall msg,
        check_vowels ucd answer false = Ok (true, msg) ->
        check_vowels ucd answer true = Ok (true, msg)).
Proof.
  destruct (to_hiragana_lower_folds ucd answer) as (kana & Hkana & _ & Hhira).
  split; [|split].
  - intros msg.
    rewrite !(check_greeting_cases ucd answer _ _ Hhira).
    destruct (strip_all_spaces (lower ucd kana) ==? utf8 "こんにちは"); [auto|].
    destruct (utf8 "こんにちわ" ==? strip_all_spaces (lower ucd kana)); discriminate.
  - intros msg name.
    rewrite !(check_self_intro_cases ucd answer _ kana Hkana).
    destruct (re_match jp_pat (collapse_spaces kana)); [auto | discriminate].
  - intros msg H.
    rewrite (check_vowels_romaji_cases ucd answer kana Hkana).
    rewrite (check_vowels_no_romaji ucd answer kana Hkana) in H.
    destruct (eqb_strs (tokens_of kana) target); [exact H|].
    destruct (List.length (tokens_of kana) =? 5)%nat; [|discriminate].
    destruct (mismatches 1 (combine (tokens_of kana) target)); discriminate.
Qed.

Lemma allowing_romaji_keeps_passes_witness :
  check_greeting ucd_rows (utf8 "コンニチハ") false = Ok (true, utf8 "좋아요! こんにちは")
  /\ check_greeting ucd_rows (utf8 "コンニチハ") true = Ok (true, utf8 "좋아요! こんにちは").
Proof.
  split; [vm_compute; reflexivity|].
  apply (proj1 (allowing_romaji_keeps_passes ucd_rows (utf8 "コンニチハ")));
    vm_compute; reflexivity.
Defined.

(** ** [strip_all_spaces] and [collapse_spaces] *)

(** X1. [strip_all_spaces] returns the characters of the text that are not
    white space, in order; nothing of its result is white space, and a
    second pass changes nothing. *)
Theorem strip_all_spaces_removes_white_space (text : str) :
  strip_all_spaces text = filter (fun c => negb (isspace c)) text
  /\ Forall (fun c => isspace c = false) (strip_all_spaces text)
  /\ strip_all_spaces (strip_all_spaces text) = strip_all_spaces text.
Proof.
  rewrite !strip_all_spaces_filter; split; [reflexivity|]; split.
  - apply Forall_forall; intros c Hc.
    apply filter_In in Hc as [_ Hc]; now apply negb_true_iff in Hc.
  - induction text as [|c rest IH]; [reflexivity|].
    cbn [filter]; destruct (isspace c) eqn:Hc; cbn [negb filter]; [exact IH|].
    rewrite Hc; cbn [negb]; now rewrite IH.
Qed.

Lemma sub_loop_spaces1_squeeze (s : str) :
  (forall pos, sub_loop spaces1 [0x20] 0 s pos = squeeze false s)
  /\ (forall pos, sub_loop spaces1 [0x20] (leading_spaces s) s pos = squeeze true s).
Proof.
  induction s as [|c rest [IHa IHb]]; split; intros pos.
  - cbn [sub_loop]; now rewrite match_length_spaces1.
  - cbn [leading_spaces sub_loop]; now rewrite match_length_spaces1.
  - cbn [sub_loop squeeze]; rewrite match_length_spaces1; cbn [leading_spaces].
    destruct (isspace c); cbn [Nat.leb app]; [now rewrite IHb | now rewrite IHa].
  - cbn [leading_spaces squeeze].
    destruct (isspace c) eqn:Hc; cbn [sub_loop]; [apply IHb|].
    rewrite match_length_spaces1; cbn [leading_spaces]; rewrite Hc; cbn [Nat.leb].
    now rewrite IHa.
Qed.

Lemma re_sub_spaces1_squeeze (text : str) :
  re_sub spaces1 (utf8 " ") text = squeeze false text.
Proof. apply sub_loop_spaces1_squeeze. Qed.

Lemma squeeze_plain_spaces (s : str) :
  forall in_run x, In x (squeeze in_run s) -> isspace x = true -> x = 0x20.
Proof.
  induction s as [|c rest IH]; intros in_run x; cbn [squeeze]; [intros []|].
  destruct (isspace c) eqn:Hc.
  - destruct in_run; [apply (IH true)|].
    intros [<- | Hx]; [reflexivity | now apply (IH true)].
  - intros [<- | Hx]; [congruence | now apply (IH false)].
Qed.

Lemma squeeze_in_run_head (s : str) (y : Z) (post : str) :
  squeeze true s = y :: post -> isspace y = false.
Proof.
  induction s as [|c rest IH]; cbn [squeeze]; [discriminate|].
  destruct (isspace c) eqn:Hc; [exact IH | now intros [= <- _]].
Qed.

Lemma squeeze_no_double_space (s : str) :
  forall in_run pre a b post,
    squeeze in_run s = pre ++ a :: b :: post -> isspace a = true -> isspace b = false.
Proof.
  induction s as [|c rest IH]; intros in_run pre a b post; cbn [squeeze].
  - destruct pre; discriminate.
  - destruct (isspace c) eqn:Hc.
    + destruct in_run; [apply (IH true)|].
      destruct pre as [|p pre]; cbn [app].
      * intros [= <- H] _; now apply squeeze_in_run_head in H.
      * intros [= _ H]; eapply IH; exact H.
    + destruct pre as [|p pre]; cbn [app].
      * intros [= <- _]; congruence.
      * intros [= _ H]; eapply IH; exact H.
Qed.

Lemma squeeze_keeps_words (s : str) :
  forall in_run,
    filter (fun c => negb (isspace c)) (squeeze in_run s)
    = filter (fun c => negb (isspace c)) s.
Proof.
  induction s as [|c rest IH]; intros in_run; [reflexivity|].
  cbn [squeeze filter].
  destruct (isspace c) eqn:Hc; cbn [negb].
  - destruct in_run; [apply IH|].
    cbn [filter]; change (isspace 0x20) with true; cbn [negb]; apply IH.
  - cbn [filter]; rewrite Hc; cbn [negb]; now rewrite IH.
Qed.

Lemma lstrip_split (s : str) :
  exists pre, s = pre ++ lstrip s /\ Forall (fun c => isspace c = true) pre.
Proof.
  induction s as [|c rest (pre & Hpre & Hall)]; [now exists []|].
  cbn [lstrip]; destruct (isspace c) eqn:Hc.
  - exists (c :: pre); split; [cbn; now rewrite <- Hpre | now constructor].
  - now exists [].
Qed.

Lemma lstrip_head (s : str) (c : Z) (rest : str) :
  lstrip s = c :: rest -> isspace c = false.
Proof.
  induction s as [|d s IH]; cbn [lstrip]; [discriminate|].
  destruct (isspace d) eqn:Hd; [exact IH | now intros [= <- _]].
Qed.

Lemma lstrip_fixed (s : str) :
  match s with c :: _ => isspace c = false | [] => True end -> lstrip s = s.
Proof. destruct s as [|c rest]; [reflexivity|]; cbn [lstrip]; now intros ->. Qed.

(** [strip] takes white space away at both ends. *)
Lemma strip_split (s : str) :
  exists pre post,
    s = pre ++ strip s ++ post
    /\ Forall (fun c => isspace c = true) pre
    /\ Forall (fun c => isspace c = true) post.
Proof.
  unfold strip.
  destruct (lstrip_split s) as (pre & Hpre & Hpre_ws).
  destruct (lstrip_split (rev (lstrip s))) as (post_rev & Hpost & Hpost_ws).
  exists pre, (rev post_rev); repeat split; [|exact Hpre_ws|now apply Forall_rev].
  rewrite <- rev_app_distr, <- Hpost, rev_involutive; exact Hpre.
Qed.

Lemma strip_ends (s : str) :
  match strip s with c :: _ => isspace c = false | [] => True end
  /\ match rev (strip s) with c :: _ => isspace c = false | [] => True end.
Proof.
  unfold strip; split.
  - destruct (lstrip_split (rev (lstrip s))) as (ws & Hws & _).
    apply (f_equal (@rev Z)) in Hws; rewrite rev_involutive, rev_app_distr in Hws.
    destruct (rev (lstrip (rev (lstrip s)))) as [|c rest]; [exact I|].
    cbn [app] in Hws; now apply lstrip_head in Hws.
  - rewrite rev_involutive.
    destruct (lstrip (rev (lstrip s))) as [|c rest] eqn:H; [exact I|].
    now apply lstrip_head in H.
Qed.

Lemma strip_fixed (s : str) :
  match s with c :: _ => isspace c = false | [] => True end ->
  match rev s with c :: _ => isspace c = false | [] => True end ->
  strip s = s.
Proof.
  intros Hhead Hlast; unfold strip.
  now rewrite (lstrip_fixed s Hhead), (lstrip_fixed (rev s) Hlast), rev_involutive.
Qed.

Lemma squeeze_fixed (s : str) :
  (forall x, In x s -> isspace x = true -> x = 0x20) ->
  (forall pre a b post, s = pre ++ a :: b :: post -> isspace a = true -> isspace b = false) ->
  forall in_run,
    match s with c :: _ => isspace c = false | [] => True end \/ in_run = false ->
    squeeze in_run s = s.
Proof.
  induction s as [|c rest IH]; intros Hplain Hsingle in_run Hstart; [reflexivity|].
  assert (Hplain' : forall x, In x rest -> isspace x = true -> x = 0x20)
    by (intros x Hx; apply Hplain; now right).
  assert (Hsingle' : forall pre a b post,
             rest = pre ++ a :: b :: post -> isspace a = true -> isspace b = false)
    by (intros pre a b post ->; now apply (Hsingle (c :: pre) a b post)).
  cbn [squeeze]; destruct (isspace c) eqn:Hc.
  - destruct Hstart as [Hstart | ->]; [congruence|].
    rewrite (Hplain c (or_introl eq_refl) Hc); f_equal.
    apply IH; auto; left.
    destruct rest as [|d rest]; [exact I|].
    now apply (Hsingle [] c d rest).
  - f_equal; apply IH; auto.
Qed.

(** X2. [collapse_spaces] returns a text whose only white space is single
    plain spaces between other characters: no white space at either end,
    no two in a row.  It keeps the characters that are not white space,
    and a second pass changes nothing. *)
Theorem collapse_spaces_normal_form (text : str) :
  (forall x, In x (collapse_spaces text) -> isspace x = true -> x = 0x20)
  /\ (forall pre a b post,
        collapse_spaces text = pre ++ a :: b :: post ->
        isspace a = true -> isspace b = false)
  /\ match collapse_spaces text with c :: _ => isspace c = false | [] => True end
  /\ match rev (collapse_spaces text) with c :: _ => isspace c = false | [] => True end
  /\ strip_all_spaces (collapse_spaces text) = strip_all_spaces text
  /\ collapse_spaces (collapse_spaces text) = collapse_spaces text.
Proof.
  assert (Hcollapse : collapse_spaces text = strip (squeeze false text))
    by (unfold collapse_spaces; now rewrite re_sub_spaces1_squeeze).
  rewrite !Hcollapse.
  destruct (strip_split (squeeze false text)) as (pre & post & Hsplit & Hpre & Hpost).
  destruct (strip_ends (squeeze false text)) as [Hhead Hlast].
  assert (Hplain : forall x, In x (strip (squeeze false text)) -> isspace x = true -> x = 0x20).
  { intros x Hx; apply (squeeze_plain_spaces text false).
    rewrite Hsplit; apply in_or_app; right; apply in_or_app; now left. }
  assert (Hsingle : forall p a b q,
             strip (squeeze false text) = p ++ a :: b :: q ->
             isspace a = true -> isspace b = false).
  { intros p a b q Hpart.
    apply (squeeze_no_double_space text false (pre ++ p) a b (q ++ post)).
    rewrite Hsplit, Hpart, <- !app_assoc; reflexivity. }
  repeat split; try assumption.
  - rewrite !strip_all_spaces_filter, <- (squeeze_keeps_words text false).
    rewrite Hsplit at 2; rewrite !filter_app.
    assert (Hnone : forall ws, Forall (fun c => isspace c = true) ws ->
                               filter (fun c => negb (isspace c)) ws = []).
    { induction 1 as [|c ws Hc _ IH]; [reflexivity|].
      cbn [filter]; now rewrite Hc. }
    now rewrite (Hnone pre Hpre), (Hnone post Hpost), app_nil_r.
  - unfold collapse_spaces; rewrite re_sub_spaces1_squeeze.
    rewrite (squeeze_fixed _ Hplain Hsingle false (or_intror eq_refl)).
    now apply strip_fixed.
Qed.

(** ** Folding twice, and the shape of the comparable form *)

(** X3. [katakana_to_hiragana] keeps the length of the text, and folding its
    result again changes nothing. *)
Theorem katakana_to_hiragana_idempotent (text : str) :
  exists out,
    katakana_to_hiragana text = Ok out
    /\ List.length out = List.length text
    /\ katakana_to_hiragana out = Ok out.
Proof.
  destruct (katakana_to_hiragana_folds text) as (out & Hout & Hfold).
  exists out; repeat split; [exact Hout | |].
  - symmetry; exact (Forall2_length Hfold).
  - apply katakana_to_hiragana_unfolded, (folds_to_all_not_folded _ _ Hfold).
Qed.

(** X4. The comparable form holds no character that [katakana_to_hiragana]
    changes, and neither folding nor lower-casing changes it (for
    lower-case rows that are those of a case mapping). *)
Theorem comparable_form_is_folded_lower_case (ucd : UCD) (x y : str) :
  lowercase_closed ucd = true ->
  to_hiragana_lower ucd x = Ok y ->
  Forall (fun c => folded c = false) y
  /\ katakana_to_hiragana y = Ok y
  /\ lower ucd y = y.
Proof.
  intros Hclosed Hy.
  destruct (to_hiragana_lower_folds ucd x) as (kana & _ & Hfold & Hx).
  rewrite Hx in Hy; injection Hy as <-.
  apply folds_to_all_not_folded in Hfold.
  assert (Hlower : Forall (fun c => folded c = false) (lower ucd kana))
    by (apply lower_from_not_folded; assumption).
  repeat split; [exact Hlower | now apply katakana_to_hiragana_unfolded|].
  apply lower_from_idempotent; assumption.
Qed.

Lemma comparable_form_is_folded_lower_case_witness :
  lowercase_closed ucd_rows = true
  /\ to_hiragana_lower ucd_rows (utf8 "ワタシ ｗａ ＢＯＢ ヶ") = Ok (utf8 "わたし wa bob ゖ")
  /\ Forall (fun c => folded c = false) (utf8 "わたし wa bob ゖ")
  /\ katakana_to_hiragana (utf8 "わたし wa bob ゖ") = Ok (utf8 "わたし wa bob ゖ")
  /\ lower ucd_rows (utf8 "わたし wa bob ゖ") = utf8 "わたし wa bob ゖ".
Proof.
  split; [vm_compute; reflexivity|].
  split; [vm_compute; reflexivity|].
  apply (comparable_form_is_folded_lower_case ucd_rows (utf8 "ワタシ ｗａ ＢＯＢ ヶ"));
    vm_compute; reflexivity.
Defined.

(** ** [self_check] *)

Lemma ensure_grows (cond : bool) (label : str) (failures : list str) :
  ensure cond label failures = failures \/ ensure cond label failures = failures ++ [label].
Proof. unfold ensure; destruct cond; auto. Qed.

(** X13. [self_check] raises nothing and returns 0 or 1; it returns 0 exactly
    when it prints the one line that says it passed.  On the rows of this
    file all nine of its tests hold: it returns 0. *)
Theorem self_check_passes :
  (forall ucd : UCD,
     exists code out,
       self_check ucd = Ok (code, out)
       /\ (code = 0 \/ code = 1)
       /\ (code = 0 <-> out = [Print (utf8 "Self-check passed.")]))
  /\ self_check ucd_rows = Ok (0, [Print (utf8 "Self-check passed.")]).
Proof.
  split; [|vm_compute; reflexivity].
  intros ucd; unfold self_check.
  repeat match goal with
         | |- context [check_greeting ucd ?a ?b] =>
             let H := fresh "H" in
             destruct (check_greeting_total ucd a b) as (? & ? & H & _); rewrite H; clear H
         | |- context [check_self_intro ucd ?a ?b] =>
             let H := fresh "H" in
             destruct (check_self_intro_total ucd a b) as (? & ? & ? & H & _);
             rewrite H; clear H
         | |- context [check_vowels ucd ?a ?b] =>
             let H := fresh "H" in
             destruct (check_vowels_total ucd a b) as (? & ? & H & _); rewrite H; clear H
         end.
  cbn [bind fst]; cbv zeta.
  match goal with
  | |- context [match ?l with _ => _ end] => destruct l as [|f failures]
  end.
  - exists 0, [Print (utf8 "Self-check passed.")]; repeat split; auto.
  - eexists 1, _; split; [reflexivity|]; split; [now right|].
    split; [discriminate|].
    intros H; apply (f_equal (@hd output (Sleep 0))) in H; cbn [hd] in H.
    injection H as H; vm_compute in H; discriminate.
Qed.

(** ** [Session.ask] *)

Lemma say_appends (s : Session) (text : str) (out : list output) :
  exists written, say s text out = out ++ written.
Proof. unfold say; eauto. Qed.

Ltac appended :=
  repeat match goal with
         | |- context [say ?s ?t ?o] =>
             let w := fresh "w" in
             let H := fresh "H" in
             destruct (say_appends s t o) as [w H]; rewrite H; clear H
         end;
  repeat rewrite <- app_assoc; eexists; reflexivity.

Lemma ask_post_step (checker : str -> result (bool * str)) (n : nat) (s : Session)
    (out out' : list output) (text : str) (msg : str) (rest : list event) (r : run unit) :
  checker (strip text) = Ok (false, msg) ->
  (exists mid, out' = out ++ mid) ->
  ask_post checker n s out' rest r ->
  ask_post checker (S n) s out (Line text :: rest) r.
Proof.
  intros Hfail [mid ->]; unfold ask_post; cbn [answered]; rewrite Hfail.
  destruct r as [[] s' w' | e s' w'].
  - intros (Htotal & Hscore & Hdelay & Hexplain & (used & -> & Hused) & (written & Hout)).
    repeat split; auto.
    + exists (Line text :: used); cbn [app List.length]; split; [reflexivity | lia].
    + exists (mid ++ written); now rewrite Hout, <- app_assoc.
  - intros (Hs & Hanswered & He); repeat split; auto.
    destruct e as [x|].
    + destruct He as (t & Hin & Hraise); exists t; split; [now right | exact Hraise].
    + destruct He as [Hstdin Hlen]; split; [exact Hstdin | cbn [List.length]; lia].
Qed.

Lemma ask_loop_third (prompt : str) (checker : str -> result (bool * str))
    (reveal : option str) (s : Session) (out : list output) (inp : list event) :
  ask_post checker 1 s out inp (ask_loop prompt checker reveal 2 s out inp).
Proof.
  destruct inp as [|[text|] rest]; cbn [ask_loop]; cbv zeta.
  - cbn [ask_post answered]; repeat split; auto.
  - destruct (checker (strip text)) as [[[|] msg]|e] eqn:Hchecker;
      cbn [Nat.add Nat.eqb ask_post answered]; rewrite Hchecker;
      cbn [total score delay explain stdin stdout].
    + repeat split; auto.
      * exists [Line text]; cbn; split; [reflexivity | lia].
      * appended.
    + repeat split; auto.
      * exists [Line text]; cbn; split; [reflexivity | lia].
      * destruct reveal as [[|c r]|]; appended.
    + repeat split; auto.
      exists text; split; [now left | exact Hchecker].
  - cbn [ask_post answered stdin stdout]; repeat split; auto; try lia.
    + exists [Interrupt]; cbn; split; [reflexivity | lia].
    + appended.
Qed.

Lemma ask_loop_second (prompt : str) (checker : str -> result (bool * str))
    (reveal : option str) (s : Session) (out : list output) (inp : list event) :
  ask_post checker 2 s out inp (ask_loop prompt checker reveal 1 s out inp).
Proof.
  destruct inp as [|[text|] rest]; cbn [ask_loop]; cbv zeta.
  - cbn [ask_post answered]; repeat split; auto.
  - destruct (checker (strip text)) as [[[|] msg]|e] eqn:Hchecker; cbn [Nat.add Nat.eqb].
    + cbn [ask_post answered]; rewrite Hchecker;
        cbn [total score delay explain stdin stdout]; repeat split; auto.
      * exists [Line text]; cbn; split; [reflexivity | lia].
      * appended.
    + eapply ask_post_step; [exact Hchecker | | apply ask_loop_third].
      destruct reveal as [[|c r]|]; appended.
    + cbn [ask_post answered]; rewrite Hchecker; repeat split; auto.
      exists text; split; [now left | exact Hchecker].
  - cbn [ask_post answered stdin stdout]; repeat split; auto; try lia.
    + exists [Interrupt]; cbn; split; [reflexivity | lia].
    + appended.
Qed.

Lemma ask_loop_first (prompt : str) (checker : str -> result (bool * str))
    (reveal : option str) (s : Session) (out : list output) (inp : list event) :
  ask_post checker 3 s out inp (ask_loop prompt checker reveal 0 s out inp).
Proof.
  destruct inp as [|[text|] rest]; cbn [ask_loop]; cbv zeta.
  - cbn [ask_post answered]; repeat split; auto.
  - destruct (checker (strip text)) as [[[|] msg]|e] eqn:Hchecker; cbn [Nat.add Nat.eqb].
    + cbn [ask_post answered]; rewrite Hchecker;
        cbn [total score delay explain stdin stdout]; repeat split; auto.
      * exists [Line text]; cbn; split; [reflexivity | lia].
      * appended.
    + eapply ask_post_step; [exact Hchecker | | apply ask_loop_second].
      appended.
    + cbn [ask_post answered]; rewrite Hchecker; repeat split; auto.
      exists text; split; [now left | exact Hchecker].
  - cbn [ask_post answered stdin stdout]; repeat split; auto; try lia.
    + exists [Interrupt]; cbn; split; [reflexivity | lia].
    + appended.
Qed.


(** With a checker that raises nothing, [ask] returns or raises [EOFError]. *)
Lemma ask_with_total_checker (prompt : str) (checker : str -> result (bool * str))
    (reveal : option str) (s : Session) (w : world) :
  (forall user, exists ok msg, checker user = Ok (ok, msg)) ->
  match ask prompt checker reveal s w with
  | Returns _ s' w' =>
      total s' = S (total s)
      /\ (score s <= score s' <= S (score s))%nat
      /\ delay s' = delay s /\ explain s' = explain s
      /\ (exists used, stdin w = used ++ stdin w' /\ (1 <= List.length used <= 3)%nat)
      /\ exists written, stdout w' = stdout w ++ written
  | Raises e s' w' =>
      e = EOFError /\ stdin w' = [] /\ (List.length (stdin w) < 3)%nat
  end.
Proof.
  intros Hchecker.
  unfold ask; cbv zeta.
  match goal with
  | |- context [ask_loop prompt checker reveal 0 ?s' ?out ?inp] =>
      pose proof (ask_loop_first prompt checker reveal s' out inp) as Hpost;
      destruct (ask_loop prompt checker reveal 0 s' out inp) as [[] s1 w1 | e s1 w1]
  end; cbn [ask_post total score delay explain] in Hpost.
  - destruct Hpost as (Htotal & Hscore & Hdelay & Hexplain & Hused & Hout).
    repeat split; auto; try lia.
    all: destruct (answered checker 3 (stdin w)); lia.
  - destruct Hpost as (-> & Hanswered & He).
    destruct e as [x|]; [|tauto].
    destruct He as (text & _ & Hraise).
    destruct (Hchecker (strip text)) as (ok & msg & Hok); congruence.
Qed.

(** ** [run_lesson_one] *)

Lemma says_returns (text : str) (s : Session) (w : world) :
  says text s w = Returns tt s {| stdin := stdin w; stdout := say s text (stdout w) |}.
Proof. reflexivity. Qed.

Section Lesson.

Variable ucd : UCD.
Variables (speed explain : str) (allow_romaji : bool) (name_hint : option str).

Ltac next_question :=
  match goal with
  | |- context [ask ?p ?c ?r ?s ?w] =>
      let Hc := fresh "Hchecker" in
      let Hask := fresh "Hask" in
      assert (Hc : forall user, exists ok msg, c user = Ok (ok, msg));
      [ intros user; cbv beta;
        first
          [ destruct (check_greeting_total ucd user allow_romaji) as (? & ? & -> & _)
          | destruct (check_self_intro_total ucd user allow_romaji) as (? & ? & ? & -> & _)
          | destruct (check_vowels_total ucd user allow_romaji) as (? & ? & -> & _) ];
        cbn [bind]; eauto
      | pose proof (ask_with_total_checker p c r s w Hc) as Hask;
        destruct (ask p c r s w) as [[] ? ? | ? ? ?];
        cbn [and_then stdin stdout] in *; clear Hc ]
  end.

Lemma run_lesson_one_tally (w : world) :
  match run_lesson_one ucd speed explain allow_romaji name_hint w with
  | Returns code s' w' =>
      code = 0 /\ total s' = 3%nat /\ (score s' <= 3)%nat
      /\ (exists used, stdin w = used ++ stdin w' /\ (3 <= List.length used <= 9)%nat)
      /\ exists written, stdout w' = stdout w ++ written
  | Raises e s' w' =>
      e = EOFError /\ stdin w' = [] /\ (List.length (stdin w) < 9)%nat
  end.
Proof.
  unfold run_lesson_one; cbv zeta.
  rewrite says_returns; cbn [and_then].
  set (w0 := {| stdin := stdin w; stdout := _ |}).
  assert (Hw0 : stdin w0 = stdin w /\ exists written, stdout w0 = stdout w ++ written)
    by (split; [reflexivity | unfold w0; cbn [stdout]; appended]).
  clearbody w0; destruct Hw0 as [Hin0 [written0 Hout0]].
  set (s0 := new_session speed explain).
  assert (Hs0 : total s0 = 0%nat /\ score s0 = 0%nat) by (split; reflexivity).
  clearbody s0; destruct Hs0 as [Htotal0 Hscore0].
  match goal with
  | |- context [and_then (if ?b then ?x else ?y) ?k] =>
      assert (Hintro : exists w1,
                 (if b then x else y) = Returns tt s0 w1
                 /\ stdin w1 = stdin w0
                 /\ exists written, stdout w1 = stdout w0 ++ written)
  end.
  { destruct (explain ==? utf8 "normal").
    - rewrite !says_returns; cbn [and_then stdin stdout].
      eexists; split; [reflexivity|]; split; [reflexivity|]; cbn [stdout]; appended.
    - exists w0; repeat split; exists []; now rewrite app_nil_r. }
  destruct Hintro as (w1 & -> & Hin1 & [written1 Hout1]); cbn [and_then].
  next_question.
  2: { destruct Hask as (-> & -> & Hlen); repeat split; auto.
       rewrite <- Hin0, <- Hin1; lia. }
  destruct Hask as (Ht1 & Hsc1 & _ & _ & (used1 & Hused1 & Hlen1) & [wr1 Hwr1]).
  next_question.
  2: { destruct Hask as (-> & -> & Hlen); repeat split; auto.
       rewrite <- Hin0, <- Hin1, Hused1, length_app; lia. }
  destruct Hask as (Ht2 & Hsc2 & _ & _ & (used2 & Hused2 & Hlen2) & [wr2 Hwr2]).
  next_question.
  2: { destruct Hask as (-> & -> & Hlen); repeat split; auto.
       rewrite <- Hin0, <- Hin1, Hused1, Hused2, !length_app; lia. }
  destruct Hask as (Ht3 & Hsc3 & _ & _ & (used3 & Hused3 & Hlen3) & [wr3 Hwr3]).
  repeat (rewrite says_returns; cbn [and_then stdin stdout]).
  match goal with
  | |- context [if ?b then _ else _] => destruct b
  end; rewrite ?says_returns; cbn [and_then stdin stdout];
    (split; [reflexivity|]; split; [lia|]; split; [lia|]; split;
     [ exists (used1 ++ used2 ++ used3); split;
       [ rewrite <- Hin0, <- Hin1, Hused1, Hused2, Hused3, <- !app_assoc; reflexivity
       | rewrite !length_app; lia ]
     | rewrite Hwr3, Hwr2, Hwr1, Hout1, Hout0; appended ]).
Qed.

End Lesson.

